(** * fastuuid: the Generator, its constructors and the textual helpers

    A shallow embedding of [uuid.go] (package [fastuuid]) and the
    properties of its generator:

    - a byte is [Init.Byte.byte], read as a number with [byte.unsigned] and
      produced from one with [byte.of_Z] (Go's conversion [byte(x)], which
      keeps the low 8 bits);
    - a [uint64] is a [Z] in [0, 2^64); the wrap-around of [atomic.AddUint64]
      is written out as [mod 2^64];
    - a [[24]byte] array and a byte slice are [list byte]; the length that
      the Go type fixes is the well-formedness predicate [wf];
    - a Go run-time panic is the [Panic] outcome of the [result] monad;
    - a [*Generator] result is an [option Generator] ([None] is [nil]) and an
      [error] result is an [option error];
    - [rand.Reader] is an argument of the constructors, as the tests replace
      it;
    - [Hex128] and [ValidHex128] are declared in the package's documentation
      and exercised by its tests, but their bodies are not part of the
      sources at hand: they are modelled from the specification. *)

From Stdlib Require Import String Ascii.
From Stdlib Require Import ZArith List Lia Bool Permutation.
From coqutil Require Import Byte.
Import ListNotations.

Local Open Scope Z_scope.
Local Open Scope list_scope.

(** ** Outcomes of a Go call: a value, or a run-time panic *)

Inductive result (A : Type) : Type :=
| Return (a : A)
| Panic (msg : string).

Arguments Return {A} a.
Arguments Panic {A} msg.

Definition bind {A B : Type} (m : result A) (k : A -> result B) : result B :=
  match m with
  | Return a => k a
  | Panic msg => Panic msg
  end.

Declare Scope go_scope.
Delimit Scope go_scope with go.
Notation "x <- m ;; k" := (bind m (fun x => k))
  (at level 61, m at next level, right associativity) : go_scope.
Local Open Scope go_scope.

(** ** encoding/binary: the little-endian byte order *)

Definition uint64_modulus : Z := 2 ^ 64.

Definition index_out_of_range : string := "index out of range"%string.

(** [binary.LittleEndian.Uint64(b)]: the bounds check [_ = b[7]], then
    [uint64(b[0]) | uint64(b[1])<<8 | ... | uint64(b[7])<<56]. *)
Definition Uint64 (b : list byte) : result Z :=
  match b with
  | b0 :: b1 :: b2 :: b3 :: b4 :: b5 :: b6 :: b7 :: _ =>
      Return
        (Z.lor (Z.lor (Z.lor (Z.lor (Z.lor (Z.lor (Z.lor
           (byte.unsigned b0)
           (Z.shiftl (byte.unsigned b1) 8))
           (Z.shiftl (byte.unsigned b2) 16))
           (Z.shiftl (byte.unsigned b3) 24))
           (Z.shiftl (byte.unsigned b4) 32))
           (Z.shiftl (byte.unsigned b5) 40))
           (Z.shiftl (byte.unsigned b6) 48))
           (Z.shiftl (byte.unsigned b7) 56))
  | _ => Panic index_out_of_range
  end.

(** [binary.LittleEndian.PutUint64(b, v)]: the bounds check [_ = b[7]], then
    [b[0] = byte(v)], [b[1] = byte(v >> 8)], ..., [b[7] = byte(v >> 56)].
    The result is the content of [b] after the call. *)
Definition PutUint64 (b : list byte) (v : Z) : result (list byte) :=
  match b with
  | _ :: _ :: _ :: _ :: _ :: _ :: _ :: _ :: rest =>
      Return
        (byte.of_Z v
         :: byte.of_Z (Z.shiftr v 8)
         :: byte.of_Z (Z.shiftr v 16)
         :: byte.of_Z (Z.shiftr v 24)
         :: byte.of_Z (Z.shiftr v 32)
         :: byte.of_Z (Z.shiftr v 40)
         :: byte.of_Z (Z.shiftr v 48)
         :: byte.of_Z (Z.shiftr v 56)
         :: rest)
  | _ => Panic index_out_of_range
  end.

(** ** The Generator *)

(** [type Generator struct { seed [24]byte; counter uint64 }] *)
Record Generator : Type := mkGenerator {
  seed : list byte;
  counter : Z
}.

(** What the Go types guarantee of a Generator value. *)
Definition wf (g : Generator) : Prop :=
  length (seed g) = 24%nat /\ 0 <= counter g < uint64_modulus.

(** [atomic.AddUint64(&g.counter, delta)]: one indivisible
    read-modify-write that returns the new value. *)
Definition atomic_AddUint64 (g : Generator) (delta : Z) : Z * Generator :=
  let new := (counter g + delta) mod uint64_modulus in
  (new, {| seed := seed g; counter := new |}).

(** [func (g *Generator) Next() [24]byte].  The slice [uuid[:8]] shares its
    storage with the local copy [uuid], so what [PutUint64] writes lands in
    the first 8 bytes of [uuid]. *)
Definition Next (g : Generator) : result (list byte * Generator) :=
  let '(x, g) := atomic_AddUint64 g 1 in
  let uuid := seed g in
  head <- PutUint64 (firstn 8 uuid) x ;;
  let uuid := head ++ skipn 8 uuid in
  Return (uuid, g).

Notation "' p <- m ;; k" := (bind m (fun p => k))
  (at level 61, p pattern, m at next level, right associativity) : go_scope.

(** [n] calls of [Next], one after the other, on the same Generator: the
    identifiers in call order, and the Generator afterwards.  Calls of
    several goroutines are the subject of [step] below. *)
Fixpoint calls (n : nat) (g : Generator)
  : result (list (list byte) * Generator) :=
  match n with
  | O => Return ([], g)
  | S n =>
      '(uuid, g) <- Next g ;;
      '(uuids, g) <- calls n g ;;
      Return (uuid :: uuids, g)
  end.

(** ** The random source *)

(** A Go [error], by its message; [nil] is [None] of [option error]. *)
Definition error : Type := string.

(** [errors.New(text)] *)
Definition errors_New (text : string) : error := text.

(** What one [io.ReadFull(rand.Reader, b)] does for a buffer of [n] bytes:
    the bytes it stored at the start of the buffer, and its error. *)
Record ReadOutcome : Type := mkReadOutcome {
  supplied : list byte;
  read_err : option error
}.

(** The random source [rand.Reader], as seen by one read of [n] bytes. *)
Definition Reader : Type := nat -> ReadOutcome.

(** [io.ReadFull] documents: "On return, n == len(buf) if and only if
    err == nil", and it never stores more than [len(buf)] bytes. *)
Definition ReadFull_contract (r : Reader) : Prop :=
  forall n : nat,
    (length (supplied (r n)) <= n)%nat /\
    (read_err (r n) = None <-> length (supplied (r n)) = n).

(** [rand.Read(b)]: the content of [b] afterwards, the number of bytes
    read, and the error. *)
Definition rand_Read (r : Reader) (b : list byte)
  : list byte * nat * option error :=
  let o := r (length b) in
  let got := firstn (length b) (supplied o) in
  (got ++ skipn (length got) b, length got, read_err o).

Definition io_EOF : error := "EOF"%string.
Definition io_ErrUnexpectedEOF : error := "unexpected EOF"%string.

(** [rand.Reader = bytes.NewReader(data)], as [TestUUID] installs it: a
    read of [n] bytes gets the first [n] bytes of [data], or fails with
    [io.EOF] (nothing read) or [io.ErrUnexpectedEOF] (too few read). *)
Definition bytes_NewReader (data : list byte) : Reader :=
  fun n =>
    if (n <=? length data)%nat then
      {| supplied := firstn n data; read_err := None |}
    else
      {| supplied := data;
         read_err := Some (match data with
                           | [] => io_EOF
                           | _ :: _ => io_ErrUnexpectedEOF
                           end) |}.

(** A random source that fails without supplying anything. *)
Definition failing_Reader (e : error) : Reader :=
  fun n =>
    match n with
    | O => {| supplied := []; read_err := None |}
    | S _ => {| supplied := []; read_err := Some e |}
    end.

(** ** The constructors *)

(** [func NewGenerator()], which returns a [*Generator] and an [error];
    [rand.Reader] is an argument here. *)
Definition NewGenerator (r : Reader)
  : result (option Generator * option error) :=
  let g := {| seed := repeat Byte.x00 24; counter := 0 |} in
  let '(s, _, err) := rand_Read r (seed g) in
  let g := {| seed := s; counter := counter g |} in
  match err with
  | Some e =>
      Return (None,
              Some (errors_New ("cannot generate random seed: " ++ e)%string))
  | None =>
      c <- Uint64 (firstn 8 (seed g)) ;;
      let g := {| seed := seed g; counter := c |} in
      Return (Some g, None)
  end.

(** [func MustNewGenerator() *Generator]: [panic(err)] on failure. *)
Definition MustNewGenerator (r : Reader) : result (option Generator) :=
  '(g, err) <- NewGenerator r ;;
  match err with
  | Some e => Panic e
  | None => Return g
  end.

(** ** Reading and writing numbers, arithmetically *)

(** The number that a byte sequence denotes in little-endian order:
    [b0 + 2^8 * b1 + 2^16 * b2 + ...]. *)
Fixpoint le_value (bs : list byte) : Z :=
  match bs with
  | [] => 0
  | b :: bs => byte.unsigned b + 2 ^ 8 * le_value bs
  end.

(** The [n]-byte little-endian encoding of [x]: byte [i] is
    [x / 2^(8 i) mod 2^8]. *)
Fixpoint le_bytes (n : nat) (x : Z) : list byte :=
  match n with
  | O => []
  | S n => byte.of_Z (x mod 2 ^ 8) :: le_bytes n (x / 2 ^ 8)
  end.

(** The leading 8 bytes of an identifier, as a 64-bit number. *)
Definition leading (uuid : list byte) : Z := le_value (firstn 8 uuid).

(** The 24 bytes 01 02 ... 18 (hex) that the tests use. *)
Definition test_buf : list byte :=
  map (fun i => byte.of_Z (Z.of_nat i + 1)) (seq 0 24).

(** ** Vocabulary of the statements, and the data of the tests *)

(** The counter after one more increment. *)
Definition succ64 (c : Z) : Z := (c + 1) mod uint64_modulus.

(** The Generator that [TestUUID] builds: seed 01 02 ... 18, counter read
    from 01 02 ... 08. *)
Definition test_gen : Generator :=
  {| seed := test_buf; counter := le_value (firstn 8 test_buf) |}.

(** A Generator whose counter is the largest 64-bit number. *)
Definition max_gen : Generator :=
  {| seed := repeat Byte.xff 8 ++ skipn 8 test_buf; counter := 2 ^ 64 - 1 |}.

(** The counter of [g] after [k] more increments. *)
Definition counter_after (g : Generator) (k : nat) : Z :=
  (counter g + Z.of_nat k) mod uint64_modulus.

(** The identifier that the [k]-th call after state [g] returns
    ([k = 1] is the next call). *)
Definition nth_uuid (g : Generator) (k : nat) : list byte :=
  le_bytes 8 (counter_after g k) ++ skipn 8 (seed g).

(** Each element is the one before it plus 1. *)
Definition increasing_by_one (xs : list Z) : Prop :=
  forall i x y,
    nth_error xs i = Some x -> nth_error xs (S i) = Some y -> y = x + 1.

(** Each element is the one before it plus 1, modulo 2^64. *)
Definition increasing_by_one_mod (xs : list Z) : Prop :=
  forall i x y,
    nth_error xs i = Some x -> nth_error xs (S i) = Some y ->
    y = (x + 1) mod uint64_modulus.

(** A seed whose leading 8 bytes are fe ff ff ff ff ff ff ff: the counter
    starts at 2^64 - 2. *)
Definition wrap_buf : list byte :=
  Byte.xfe :: repeat Byte.xff 7 ++ skipn 8 test_buf.

Definition wrap_gen : Generator :=
  {| seed := wrap_buf; counter := 2 ^ 64 - 2 |}.

(** The content of the zeroed seed after [rand.Read(g.seed[:])]. *)
Definition drawn_seed (r : Reader) : list byte :=
  fst (fst (rand_Read r (repeat Byte.x00 24))).

(** A source that fails as when the OS has no entropy to give. *)
Definition no_entropy : Reader :=
  failing_Reader "entropy source unavailable"%string.

Definition no_entropy_error : error :=
  "cannot generate random seed: entropy source unavailable"%string.

(** ** Concurrent callers *)

(** Of [Next], only [atomic.AddUint64] touches shared state that changes:
    the seed is never written after construction, and [PutUint64] writes to
    the caller's own copy [uuid].  A call in progress is therefore the value
    [x] that its increment returned, and an execution of any number of
    goroutines that call [Next] is a sequence of steps of two kinds: the
    increment of some call takes effect, or some call past its increment
    composes its identifier and returns.  Each call carries the ordinal of
    its increment, which the program does not see. *)
Record World : Type := mkWorld {
  shared : Generator;
  increments : nat;
  in_flight : list (nat * Z);
  returned : list (nat * list byte)
}.

Inductive step : World -> World -> Prop :=
| step_increment (w : World) (x : Z) (g' : Generator) :
    atomic_AddUint64 (shared w) 1 = (x, g') ->
    step w {| shared := g';
              increments := S (increments w);
              in_flight := (S (increments w), x) :: in_flight w;
              returned := returned w |}
| step_return (w : World) (before after : list (nat * Z))
              (t : nat) (x : Z) (head : list byte) :
    in_flight w = before ++ (t, x) :: after ->
    PutUint64 (firstn 8 (seed (shared w))) x = Return head ->
    step w {| shared := shared w;
              increments := increments w;
              in_flight := before ++ after;
              returned :=
                returned w ++ [(t, head ++ skipn 8 (seed (shared w)))] |}.

(** No call has been made yet on the Generator [g]. *)
Definition start (g : Generator) : World :=
  {| shared := g; increments := 0; in_flight := []; returned := [] |}.

Inductive reachable (g : Generator) : World -> Prop :=
| reachable_start : reachable g (start g)
| reachable_step (w w' : World) :
    reachable g w -> step w w' -> reachable g w'.

(** The ordinals of all calls that have incremented. *)
Definition tickets (w : World) : list nat :=
  map fst (in_flight w) ++ map fst (returned w).

(** What every world reachable from [start g] satisfies. *)
Definition world_inv (g : Generator) (w : World) : Prop :=
  shared w =
    {| seed := seed g; counter := counter_after g (increments w) |} /\
  Forall (fun c => snd c = counter_after g (fst c)) (in_flight w) /\
  Forall (fun c => snd c = nth_uuid g (fst c)) (returned w) /\
  NoDup (tickets w) /\
  Forall (fun t => (1 <= t <= increments w)%nat) (tickets w).

(** One step of an execution, chosen by the scheduler: the increment of a
    new call takes effect, or the [i]-th call in flight returns. *)
Inductive event : Type :=
| Incr
| Finish (i : nat).

(** The world after the event; [None] when no [i]-th call is in flight. *)
Definition do_event (e : event) (w : World) : option World :=
  match e with
  | Incr =>
      let '(x, g') := atomic_AddUint64 (shared w) 1 in
      Some {| shared := g';
              increments := S (increments w);
              in_flight := (S (increments w), x) :: in_flight w;
              returned := returned w |}
  | Finish i =>
      match nth_error (in_flight w) i with
      | None => None
      | Some (t, x) =>
          match PutUint64 (firstn 8 (seed (shared w))) x with
          | Panic _ => None
          | Return head =>
              Some {| shared := shared w;
                      increments := increments w;
                      in_flight :=
                        firstn i (in_flight w) ++ skipn (S i) (in_flight w);
                      returned :=
                        returned w
                        ++ [(t, head ++ skipn 8 (seed (shared w)))] |}
          end
      end
  end.

(** The world after a schedule of events. *)
Fixpoint run (schedule : list event) (w : World) : option World :=
  match schedule with
  | [] => Some w
  | e :: schedule =>
      match do_event e w with
      | None => None
      | Some w => run schedule w
      end
  end.

(** Three calls that overlap and return out of order. *)
Definition test_schedule : list event :=
  [Incr; Incr; Finish 0; Incr; Finish 1; Finish 0].

(** A source that supplies the identifier [u], whatever is asked. *)
Definition identifier_Reader (u : list byte) : Reader :=
  fun _ => {| supplied := u; read_err := None |}.

(** The first identifier of [test_gen]: 02 02 03 ... 18. *)
Definition test_uuid : list byte := Byte.x02 :: skipn 1 test_buf.

(** [test_gen] after its first call. *)
Definition test_gen1 : Generator :=
  {| seed := test_buf; counter := succ64 (counter test_gen) |}.

(** [test_gen] with other leading seed bytes. *)
Definition test_gen' : Generator :=
  {| seed := repeat Byte.x00 8 ++ skipn 8 test_buf;
     counter := counter test_gen |}.

(** ** The Generator with pooled counters *)

(** The revision of [uuid.go] in which [Next] takes a counter of 32767
    numbers from a [sync.Pool] instead of incrementing one shared counter.
    Of [sync.Pool] the model keeps what its documentation promises: [Get]
    hands out any one item stored with [Put], which then is no longer
    stored, or finds none and calls [New]; an item that the pool drops is
    one that [Get] never finds.  Calls are made one after the other. *)
Module Pooled.

(** [const step = 32768] *)
Definition step : Z := 32768.

(** Go's conversion [uint16(x)]. *)
Definition uint16 (x : Z) : Z := x mod 2 ^ 16.

(** [a ^ b] on bytes. *)
Definition byte_xor (a b : byte) : byte :=
  byte.of_Z (Z.lxor (byte.unsigned a) (byte.unsigned b)).

(** [type counter struct { n uint16; limit uint16; seed [24]byte }]; the
    field [seed] is [c_seed] here, next to the field [seed] of the
    Generator. *)
Record counter : Type := mkCounter {
  n : Z;
  limit : Z;
  c_seed : list byte
}.

(** [type Generator struct { pool sync.Pool; mu sync.Mutex; base0 uint64;
    base1 uint64; seed [24]byte }].  The pool is the counters it stores and
    whether its [New] is set (to [g.newCounter], by [NewGenerator]); the
    mutex has no state between calls. *)
Record Generator : Type := mkGenerator {
  pool_New : bool;
  pool : list counter;
  base0 : Z;
  base1 : Z;
  seed : list byte
}.

(** The loop of [xorBytesUint64]:
    [for i, b := range buf[:] { into[i] ^= b }]. *)
Fixpoint xor_range (buf into : list byte) : result (list byte) :=
  match buf with
  | [] => Return into
  | b :: buf =>
      match into with
      | [] => Panic index_out_of_range
      | x :: into =>
          rest <- xor_range buf into ;;
          Return (byte_xor x b :: rest)
      end
  end.

(** [func xorBytesUint64(into []byte, n uint64)]; the result is the content
    of [into] after the call. *)
Definition xorBytesUint64 (into : list byte) (v : Z) : result (list byte) :=
  buf <- PutUint64 (repeat Byte.x00 8) v ;;
  xor_range buf into.

(** [func (g *Generator) newCounter() interface{}]: the new counter, and
    the Generator afterwards. *)
Definition newCounter (g : Generator) : result (counter * Generator) :=
  let lim := (base0 g + step) mod uint64_modulus in
  let g := {| pool_New := pool_New g; pool := pool g;
              base0 := lim; base1 := base1 g; seed := seed g |} in
  let g := if lim <? step
           then {| pool_New := pool_New g; pool := pool g; base0 := base0 g;
                   base1 := (base1 g + 1) mod uint64_modulus;
                   seed := seed g |}
           else g in
  let v := (lim - step) mod uint64_modulus in
  let c := {| n := uint16 (Z.land v 65535);
              limit := uint16 (Z.land lim 65535);
              c_seed := seed g |} in
  s <- xorBytesUint64 (c_seed c) v ;;
  s <- match s, seed g with
       | _ :: _ :: rest, s0 :: s1 :: _ => Return (s0 :: s1 :: rest)
       | _, _ => Panic index_out_of_range
       end ;;
  high <- xorBytesUint64 (skipn 8 s) (base1 g) ;;
  let s := firstn 8 s ++ high in
  Return ({| n := n c; limit := limit c; c_seed := s |}, g).

(** What [sync.Pool] finds at a [Get]: the [i]-th of the counters it
    stores, or nothing. *)
Inductive choice : Type :=
| Stored (i : nat)
| Nothing.

Definition nil_conversion : string :=
  "interface conversion: interface is nil, not *fastuuid.counter"%string.

(** [g.pool.Get()], asserted to be a [*counter], when the pool finds nothing
    to hand out. *)
Definition pool_miss (g : Generator) : result (counter * Generator) :=
  if pool_New g then newCounter g else Panic nil_conversion.

(** [g.pool.Get()], asserted to be a [*counter]. *)
Definition pool_Get (ch : choice) (g : Generator)
  : result (counter * Generator) :=
  match ch with
  | Stored i =>
      match nth_error (pool g) i with
      | Some c =>
          Return (c, {| pool_New := pool_New g;
                        pool := firstn i (pool g) ++ skipn (S i) (pool g);
                        base0 := base0 g; base1 := base1 g;
                        seed := seed g |})
      | None => pool_miss g
      end
  | Nothing => pool_miss g
  end.

(** [g.pool.Put(c)] *)
Definition pool_Put (c : counter) (g : Generator) : Generator :=
  {| pool_New := pool_New g; pool := c :: pool g;
     base0 := base0 g; base1 := base1 g; seed := seed g |}.

(** [func (g *Generator) Next() (uuid [24]byte)].  Each turn of the loop
    takes what the pool finds from [choices]; [Return None] says that the
    loop has not returned when [choices] is used up. *)
Fixpoint Next (choices : list choice) (g : Generator)
  : result (option (list byte * Generator)) :=
  match choices with
  | [] => Return None
  | ch :: choices =>
      '(c, g) <- pool_Get ch g ;;
      let n' := uint16 (n c + 1) in
      if n' =? limit c then Next choices g
      else
        let c := {| n := n'; limit := limit c; c_seed := c_seed c |} in
        let uuid := c_seed c in
        let g := pool_Put c g in
        match uuid with
        | u0 :: u1 :: rest =>
            Return
              (Some (byte_xor u0 (byte.of_Z n')
                     :: byte_xor u1 (byte.of_Z (Z.shiftr n' 8))
                     :: rest, g))
        | _ => Panic index_out_of_range
        end
  end.

(** [func NewGenerator()], which returns a [*Generator] and an [error]. *)
Definition NewGenerator (r : Reader)
  : result (option Generator * option error) :=
  let g := {| pool_New := false; pool := []; base0 := 0; base1 := 0;
              seed := repeat Byte.x00 24 |} in
  let '(s, _, err) := rand_Read r (seed g) in
  let g := {| pool_New := pool_New g; pool := pool g; base0 := base0 g;
              base1 := base1 g; seed := s |} in
  match err with
  | Some e =>
      Return (None,
              Some (errors_New ("cannot generate random seed: " ++ e)%string))
  | None =>
      let g := {| pool_New := true; pool := pool g; base0 := base0 g;
                  base1 := base1 g; seed := seed g |} in
      Return (Some g, None)
  end.

(** [func MustNewGenerator() *Generator] *)
Definition MustNewGenerator (r : Reader) : result (option Generator) :=
  '(g, err) <- NewGenerator r ;;
  match err with
  | Some e => Panic e
  | None => Return g
  end.

(** Calls of [Next] one after the other, the [k]-th with the pool's choices
    [nth k choicess]; [Return None] when one of them used up its choices. *)
Fixpoint calls (choicess : list (list choice)) (g : Generator)
  : result (option (list (list byte) * Generator)) :=
  match choicess with
  | [] => Return (Some ([], g))
  | choices :: choicess =>
      r <- Next choices g ;;
      match r with
      | None => Return None
      | Some (uuid, g) =>
          r <- calls choicess g ;;
          match r with
          | None => Return None
          | Some (uuids, g) => Return (Some (uuid :: uuids, g))
          end
      end
  end.

(** [s] with its bytes xor-ed by those of [mask], as far as [mask] goes. *)
Fixpoint xor_bytes (s mask : list byte) : list byte :=
  match s, mask with
  | x :: s, m :: mask => byte_xor x m :: xor_bytes s mask
  | s, [] => s
  | [], _ :: _ => []
  end.

(** What [newCounter] xors into the seed for the block of numbers that
    starts at [B], when [base1] is [H]: nothing into bytes 0 and 1, bytes
    2..7 of [B], and [H]. *)
Definition mask (B H : Z) : list byte :=
  Byte.x00 :: Byte.x00 :: skipn 2 (le_bytes 8 B) ++ le_bytes 8 H.

(** The counter of the block that starts at [B], after [j] of its numbers
    have been handed out. *)
Definition counter_at (S : list byte) (B H j : Z) : counter :=
  {| n := (B + j) mod 2 ^ 16;
     limit := (B + step) mod 2 ^ 16;
     c_seed := xor_bytes S (mask B H) |}.

(** The identifier with the number [V], when [base1] is [H]. *)
Definition ident (S : list byte) (V H : Z) : list byte :=
  xor_bytes S (le_bytes 8 V ++ le_bytes 8 H).

(** What the Go types guarantee of a Generator made by [NewGenerator]. *)
Definition wf (g : Generator) : Prop :=
  pool_New g = true /\
  length (seed g) = 24%nat /\
  0 <= base0 g < uint64_modulus /\
  0 <= base1 g < uint64_modulus /\
  Forall (fun c => length (c_seed c) = 24%nat) (pool g).

(** A block of numbers in use: where it starts, and how many of its
    numbers have been handed out. *)
Definition block : Type := (Z * Z)%type.

(** The state of a Generator with the seed [S] that has returned the
    identifiers numbered [issued] in [k] calls and holds the counters of
    [blocks] in its pool, before [base0] has wrapped. *)
Definition inv (S : list byte) (g : Generator)
           (blocks : list block) (issued : list Z) (k : nat) : Prop :=
  length S = 24%nat /\
  pool_New g = true /\
  seed g = S /\
  base1 g = 0 /\
  pool g = map (fun b => counter_at S (fst b) 0 (snd b)) blocks /\
  (exists K, 0 <= K <= Z.of_nat k /\ base0 g = step * K) /\
  NoDup (map fst blocks) /\
  Forall (fun b =>
            (exists m, 0 <= m /\ fst b = step * m) /\
            fst b + step <= base0 g /\
            0 <= snd b < step /\
            Forall (fun V => ~ (fst b + snd b < V < fst b + step)) issued)
         blocks /\
  NoDup issued /\
  Forall (fun V => 0 < V < base0 g) issued.

(** The Generator of the package's tests after [NewGenerator]. *)
Definition test_gen : Generator :=
  {| pool_New := true; pool := []; base0 := 0; base1 := 0;
     seed := test_buf |}.

(** A Generator that was not made by [NewGenerator]. *)
Definition zero_gen : Generator :=
  {| pool_New := false; pool := []; base0 := 0; base1 := 0;
     seed := repeat Byte.x00 24 |}.

(** A Generator whose [base0] is about to wrap. *)
Definition wrap_gen : Generator :=
  {| pool_New := true; pool := []; base0 := 2 ^ 64 - 32768; base1 := 0;
     seed := test_buf |}.

(** A turn of the loop of [Next] from the point where the pool has handed
    out the counter [c]. *)
Definition turn (c : counter) (g : Generator) (choices : list choice)
  : result (option (list byte * Generator)) :=
  let n' := uint16 (n c + 1) in
  if n' =? limit c then Next choices g
  else
    let c := {| n := n'; limit := limit c; c_seed := c_seed c |} in
    let uuid := c_seed c in
    let g := pool_Put c g in
    match uuid with
    | u0 :: u1 :: rest =>
        Return
          (Some (byte_xor u0 (byte.of_Z n')
                 :: byte_xor u1 (byte.of_Z (Z.shiftr n' 8))
                 :: rest, g))
    | _ => Panic index_out_of_range
    end.

(** Five calls; the pool finds nothing, the last counter put, nothing, the
    counter put before the last, and the last. *)
Definition test_choices : list (list choice) :=
  [[Nothing]; [Stored 0]; [Nothing]; [Stored 1]; [Stored 0]].

End Pooled.

(** ** The textual helpers *)

Local Open Scope string_scope.

(** Modelled from the spec: the lowercase hex digits [0]-[9], [a]-[f] that
    the missing bodies of [Hex128] and [ValidHex128] write and accept. *)
Definition hextable : list ascii := list_ascii_of_string "0123456789abcdef".

(** Modelled from the spec: the test of [ValidHex128] (body missing) for
    one character, ['0' <= c <= '9' or 'a' <= c <= 'f']. *)
Definition isLowerHex (c : ascii) : bool :=
  let n := N_of_ascii c in
  ((48 <=? n) && (n <=? 57) || (97 <=? n) && (n <=? 102))%N.

(** Modelled from the spec: [k] lowercase hex digits at the start of [s];
    what follows them, or [None] ([ValidHex128], body missing). *)
Fixpoint take_hex (k : nat) (s : string) : option string :=
  match k with
  | O => Some s
  | S k =>
      match s with
      | EmptyString => None
      | String c s => if isLowerHex c then take_hex k s else None
      end
  end.

(** Modelled from the spec: groups of hex digits of the given sizes with a
    literal hyphen between two groups and nothing after the last
    ([ValidHex128], body missing). *)
Fixpoint match_groups (sizes : list nat) (s : string) : bool :=
  match sizes with
  | [] => false
  | [k] =>
      match take_hex k s with
      | Some EmptyString => true
      | _ => false
      end
  | k :: sizes =>
      match take_hex k s with
      | Some (String c s) => Ascii.eqb c "-" && match_groups sizes s
      | _ => false
      end
  end.

(** Modelled from the spec: [func ValidHex128(id string) bool], of which
    the sources at hand have the declaration and the tests only: true iff the string has
    36 characters in the 8-4-4-4-12 grouping with literal hyphens, every
    other character a lowercase hex digit. *)
Definition ValidHex128 (id : string) : bool :=
  (String.length id =? 36)%nat && match_groups [8; 4; 4; 4; 12]%nat id.

(** Modelled from the spec: the hex digit of the high nibble ([Hex128],
    body missing). *)
Definition hex_hi (b : byte) : ascii :=
  nth (Z.to_nat (Z.shiftr (byte.unsigned b) 4)) hextable "0"%char.

(** Modelled from the spec: the hex digit of the low nibble ([Hex128], body
    missing). *)
Definition hex_lo (b : byte) : ascii :=
  nth (Z.to_nat (Z.land (byte.unsigned b) 15)) hextable "0"%char.

(** Modelled from the spec: the bytes of a group as lowercase hex digits
    ([Hex128], body missing). *)
Fixpoint hex_encode (bs : list byte) : string :=
  match bs with
  | [] => EmptyString
  | b :: bs => String (hex_hi b) (String (hex_lo b) (hex_encode bs))
  end.

(** Modelled from the spec: the fixed nibble substitution of [Hex128] (body
    missing): the high nibble of [b] becomes the marker [m]. *)
Definition with_marker (m : Z) (b : byte) : byte :=
  byte.of_Z (Z.lor (Z.shiftl m 4) (Z.land (byte.unsigned b) 15)).

(** Modelled from the spec: [func Hex128(uuid [24]byte) string], of which
    the sources at hand have the declaration and the test only: the first 16 bytes in
    groups of 8-4-4-4-12 lowercase hex digits, with the marker 4 in the high
    nibble of byte 6 and the marker 8 in the high nibble of byte 8.  Bytes 6
    and 9 are exchanged first: the expected string of the spec's example
    and the note in [TestHex128] ("byte 6 is swapped with byte 9") make it
    so.  A [uuid] of fewer than 16 bytes is no [[24]byte]. *)
Definition Hex128 (uuid : list byte) : string :=
  match uuid with
  | b0 :: b1 :: b2 :: b3 :: b4 :: b5 :: b6 :: b7 :: b8 :: b9
       :: b10 :: b11 :: b12 :: b13 :: b14 :: b15 :: _ =>
      let '(b6, b9) := (b9, b6) in
      let b6 := with_marker 4 b6 in
      let b8 := with_marker 8 b8 in
      hex_encode [b0; b1; b2; b3] ++ "-"
      ++ hex_encode [b4; b5] ++ "-"
      ++ hex_encode [b6; b7] ++ "-"
      ++ hex_encode [b8; b9] ++ "-"
      ++ hex_encode [b10; b11; b12; b13; b14; b15]
  | _ => EmptyString
  end.

(** The positions of the separators in the 8-4-4-4-12 grouping. *)
Definition separators : list nat := [8; 13; 18; 23]%nat.

(** A lowercase hex digit. *)
Definition lower_hex (c : ascii) : Prop := In c hextable.

(** The character class that position [i] asks for. *)
Definition class_at (i : nat) (c : ascii) : bool :=
  if existsb (Nat.eqb i) separators then Ascii.eqb c "-" else isLowerHex c.

(** Every character of [s] is of the class of its position, [s] starting
    at position [i]. *)
Fixpoint check_from (i : nat) (s : string) : bool :=
  match s with
  | EmptyString => true
  | String c s => class_at i c && check_from (S i) s
  end.

(** Position [i] holds a separator of the 8-4-4-4-12 grouping. *)
Definition is_separator (i : nat) : Prop :=
  i = 8%nat \/ i = 13%nat \/ i = 18%nat \/ i = 23%nat.

(** An identifier with the first 16 bytes of [test_buf] and another tail. *)
Definition test_buf' : list byte := (firstn 16 test_buf ++ repeat Byte.xff 8)%list.

(** One more character of a 36-character string: both the grouping test
    and the test by positions go on, or both are false. *)
Ltac step_class :=
  cbn [match_groups take_hex check_from class_at existsb separators
       Nat.eqb orb andb];
  match goal with
  | |- context [isLowerHex ?c] => destruct (isLowerHex c)
  | |- context [Ascii.eqb ?c "-"] => destruct (Ascii.eqb c "-")
  end;
  try reflexivity.

(** A list of 24 bytes, as its 24 elements. *)
Ltac as_24_bytes u H :=
  do 24 (destruct u as [|? u]; [discriminate H|]);
  destruct u; [clear H | discriminate H].

(** The number that a hex digit stands for. *)
Definition hex_value (c : ascii) : Z :=
  let n := Z.of_N (N_of_ascii c) in
  if (n <=? 57)%Z then (n - 48)%Z else (n - 87)%Z.

Local Close Scope string_scope.

(** * Properties *)

(** ** Little-endian encoding *)

Lemma uint64_modulus_pos : 0 < uint64_modulus.
Proof. reflexivity. Qed.

Lemma lor_shiftl_add (a b n : Z) :
  0 <= n -> 0 <= a < 2 ^ n -> Z.lor a (Z.shiftl b n) = a + b * 2 ^ n.
Proof.
  intros Hn Ha.
  assert (Hdisj : Z.land a (Z.shiftl b n) = 0).
  { apply Z.bits_inj'; intros i Hi.
    rewrite Z.land_spec, Z.bits_0.
    destruct (Z.ltb_spec i n) as [Hlt | Hge].
    - rewrite Z.shiftl_spec_low by assumption. apply andb_false_r.
    - rewrite <- (Z.mod_small a (2 ^ n)) by assumption.
      rewrite Z.mod_pow2_bits_high by lia. reflexivity. }
  pose proof (Z.add_lor_land a (Z.shiftl b n)) as Hsum.
  rewrite Hdisj in Hsum.
  rewrite <- Z.shiftl_mul_pow2 by assumption. lia.
Qed.

Lemma byte_of_Z_mod (x : Z) : byte.of_Z (x mod 2 ^ 8) = byte.of_Z x.
Proof.
  apply byte.unsigned_inj. rewrite !byte.unsigned_of_Z. unfold byte.wrap.
  apply Z.mod_mod. lia.
Qed.

Lemma length_le_bytes (n : nat) : forall x, length (le_bytes n x) = n.
Proof. induction n as [|n IH]; intros x; simpl; [reflexivity | now rewrite IH]. Qed.

Lemma le_value_bound (bs : list byte) :
  0 <= le_value bs < 2 ^ (8 * Z.of_nat (length bs)).
Proof.
  induction bs as [|b bs IH]; [simpl; lia|].
  cbn [le_value length]. pose proof (byte.unsigned_range b) as Hb.
  replace (8 * Z.of_nat (S (length bs))) with (8 + 8 * Z.of_nat (length bs)) by lia.
  rewrite Z.pow_add_r by lia. nia.
Qed.

(** Reading back an encoding gives the number, reduced to [n] bytes. *)
Lemma le_value_le_bytes (n : nat) :
  forall x, le_value (le_bytes n x) = x mod 2 ^ (8 * Z.of_nat n).
Proof.
  induction n as [|n IH]; intros x.
  - simpl. now rewrite Z.mod_1_r.
  - cbn [le_bytes le_value]. rewrite IH, byte.unsigned_of_Z. unfold byte.wrap.
    rewrite Z.mod_mod by lia.
    replace (8 * Z.of_nat (S n)) with (8 + 8 * Z.of_nat n) by lia.
    rewrite Z.pow_add_r by lia.
    rewrite (Z.rem_mul_r x (2 ^ 8) (2 ^ (8 * Z.of_nat n))) by lia.
    reflexivity.
Qed.

(** Encoding the number that a byte sequence denotes gives it back. *)
Lemma le_bytes_le_value (bs : list byte) :
  le_bytes (length bs) (le_value bs) = bs.
Proof.
  induction bs as [|b bs IH]; [reflexivity|].
  cbn [length le_bytes le_value]. pose proof (byte.unsigned_range b) as Hb.
  f_equal.
  - rewrite byte_of_Z_mod.
    apply byte.unsigned_inj. rewrite byte.unsigned_of_Z. unfold byte.wrap.
    rewrite (Z.mul_comm (2 ^ 8)), Z.mod_add by lia.
    apply Z.mod_small. assumption.
  - rewrite (Z.mul_comm (2 ^ 8)), Z.div_add by lia.
    rewrite Z.div_small by assumption. exact IH.
Qed.

Lemma le_bytes_mod (n : nat) (x : Z) :
  le_bytes n (x mod 2 ^ (8 * Z.of_nat n)) = le_bytes n x.
Proof.
  rewrite <- (le_value_le_bytes n x).
  rewrite <- (length_le_bytes n x) at 1.
  apply le_bytes_le_value.
Qed.

Lemma le_bytes_8_mod (x : Z) :
  le_bytes 8 (x mod uint64_modulus) = le_bytes 8 x.
Proof. exact (le_bytes_mod 8 x). Qed.

Lemma le_value_le_bytes_8 (x : Z) :
  0 <= x < uint64_modulus -> le_value (le_bytes 8 x) = x.
Proof.
  intros Hx. rewrite le_value_le_bytes.
  apply Z.mod_small. exact Hx.
Qed.

Lemma le_bytes_8_inj (x y : Z) :
  0 <= x < uint64_modulus -> 0 <= y < uint64_modulus ->
  le_bytes 8 x = le_bytes 8 y -> x = y.
Proof.
  intros Hx Hy E.
  rewrite <- (le_value_le_bytes_8 x Hx), <- (le_value_le_bytes_8 y Hy).
  now rewrite E.
Qed.

(** [Uint64] reads the first 8 bytes as a little-endian number; it panics
    on fewer than 8 bytes only. *)
Lemma Uint64_le_value (b : list byte) :
  (8 <= length b)%nat -> Uint64 b = Return (le_value (firstn 8 b)).
Proof.
  intros Hlen.
  do 8 (destruct b as [|? b]; [simpl in Hlen; lia|]).
  cbn [Uint64 firstn le_value]. f_equal.
  repeat match goal with
         | |- context [byte.unsigned ?x] =>
             lazymatch goal with
             | H : 0 <= byte.unsigned x < _ |- _ => fail
             | _ => pose proof (byte.unsigned_range x)
             end
         end.
  rewrite (lor_shiftl_add _ _ 8), (lor_shiftl_add _ _ 16),
    (lor_shiftl_add _ _ 24), (lor_shiftl_add _ _ 32),
    (lor_shiftl_add _ _ 40), (lor_shiftl_add _ _ 48),
    (lor_shiftl_add _ _ 56) by lia.
  lia.
Qed.

(** [PutUint64] stores the 8-byte little-endian encoding and keeps the
    rest of the slice. *)
Lemma PutUint64_le_bytes (b : list byte) (v : Z) :
  (8 <= length b)%nat -> PutUint64 b v = Return (le_bytes 8 v ++ skipn 8 b).
Proof.
  intros Hlen.
  do 8 (destruct b as [|? b]; [simpl in Hlen; lia|]).
  cbn [PutUint64 le_bytes skipn app].
  rewrite !byte_of_Z_mod, !Z.shiftr_div_pow2 by lia.
  rewrite !Z.div_div by lia.
  reflexivity.
Qed.

Lemma PutUint64_head (s : list byte) (v : Z) :
  length s = 24%nat -> PutUint64 (firstn 8 s) v = Return (le_bytes 8 v).
Proof.
  intros Hs. rewrite PutUint64_le_bytes by (rewrite length_firstn; lia).
  rewrite skipn_firstn_comm. cbn [Nat.sub firstn].
  now rewrite app_nil_r.
Qed.

(** ** Next *)

Lemma succ64_range (c : Z) : 0 <= succ64 c < uint64_modulus.
Proof. apply Z.mod_pos_bound, uint64_modulus_pos. Qed.

Lemma Next_eq (g : Generator) :
  wf g ->
  Next g = Return (le_bytes 8 (succ64 (counter g)) ++ skipn 8 (seed g),
                   {| seed := seed g; counter := succ64 (counter g) |}).
Proof.
  intros [Hlen _]. unfold Next, atomic_AddUint64. cbn [seed counter].
  rewrite PutUint64_head by exact Hlen. reflexivity.
Qed.

Lemma Next_wf (g g' : Generator) (uuid : list byte) :
  wf g -> Next g = Return (uuid, g') -> wf g'.
Proof.
  intros Hwf E. rewrite (Next_eq g Hwf) in E. injection E as _ <-.
  split; cbn [seed counter]; [apply Hwf | apply succ64_range].
Qed.

Lemma firstn_8_le_bytes_app (x : Z) (l : list byte) :
  firstn 8 (le_bytes 8 x ++ l) = le_bytes 8 x.
Proof. reflexivity. Qed.

Lemma skipn_8_le_bytes_app (x : Z) (l : list byte) :
  skipn 8 (le_bytes 8 x ++ l) = l.
Proof. reflexivity. Qed.

Lemma length_compose (x : Z) (s : list byte) :
  length s = 24%nat -> length (le_bytes 8 x ++ skipn 8 s) = 24%nat.
Proof.
  intros Hs. rewrite length_app, length_le_bytes, length_skipn. lia.
Qed.

Lemma leading_nth_uuid (g : Generator) (k : nat) :
  leading (nth_uuid g k) = (counter g + Z.of_nat k) mod uint64_modulus.
Proof.
  unfold leading, nth_uuid, counter_after. rewrite firstn_8_le_bytes_app.
  apply le_value_le_bytes_8, Z.mod_pos_bound, uint64_modulus_pos.
Qed.

(** C1: for every Generator with counter [c] and a 24-byte seed [s], [Next]
    returns the 24 bytes whose first 8 are the little-endian encoding of
    [c+1 mod 2^64] and whose bytes 8..23 are those of [s]; the Generator
    afterwards has the same seed and the counter [c+1 mod 2^64], and nothing
    else has changed. *)
Theorem Next_returns_counter_and_seed_tail (g : Generator) :
  wf g ->
  exists uuid g',
    Next g = Return (uuid, g') /\
    length uuid = 24%nat /\
    firstn 8 uuid = le_bytes 8 ((counter g + 1) mod 2 ^ 64) /\
    leading uuid = (counter g + 1) mod 2 ^ 64 /\
    skipn 8 uuid = skipn 8 (seed g) /\
    g' = {| seed := seed g; counter := (counter g + 1) mod 2 ^ 64 |}.
Proof.
  intros Hwf. eexists _, _. split; [apply Next_eq, Hwf|].
  split; [apply length_compose, Hwf|].
  split; [apply firstn_8_le_bytes_app|].
  split; [apply (leading_nth_uuid g 1)|].
  split; [apply skipn_8_le_bytes_app | reflexivity].
Qed.

Lemma test_gen_wf : wf test_gen.
Proof. split; [reflexivity | split; vm_compute; congruence]. Qed.

Lemma Next_returns_counter_and_seed_tail_witness :
  exists uuid g',
    Next test_gen = Return (uuid, g') /\
    length uuid = 24%nat /\
    firstn 8 uuid = le_bytes 8 ((counter test_gen + 1) mod 2 ^ 64) /\
    leading uuid = (counter test_gen + 1) mod 2 ^ 64 /\
    skipn 8 uuid = skipn 8 (seed test_gen) /\
    g' = {| seed := seed test_gen;
            counter := (counter test_gen + 1) mod 2 ^ 64 |}.
Proof. apply (Next_returns_counter_and_seed_tail test_gen), test_gen_wf. Defined.

(** C6: [Next] has no failing path: on every Generator it returns 24 bytes
    and leaves a well-formed Generator; at the largest counter value the
    counter silently wraps to 0 and the identifier starts with 8 zero
    bytes. *)
Theorem Next_total_and_wraps (g : Generator) :
  wf g ->
  exists uuid g',
    Next g = Return (uuid, g') /\
    length uuid = 24%nat /\
    wf g' /\
    (counter g = 2 ^ 64 - 1 ->
     counter g' = 0 /\ firstn 8 uuid = repeat Byte.x00 8).
Proof.
  intros Hwf. eexists _, _. split; [apply Next_eq, Hwf|].
  split; [apply length_compose, Hwf|].
  split.
  - split; cbn [seed counter]; [apply Hwf | apply succ64_range].
  - intros Hmax. cbn [counter]. unfold succ64. rewrite Hmax.
    split; [reflexivity | rewrite firstn_8_le_bytes_app; reflexivity].
Qed.

Lemma max_gen_wf : wf max_gen.
Proof. split; [reflexivity | split; vm_compute; congruence]. Qed.

Lemma Next_total_and_wraps_witness :
  exists uuid g',
    Next max_gen = Return (uuid, g') /\
    length uuid = 24%nat /\
    wf g' /\
    (counter max_gen = 2 ^ 64 - 1 ->
     counter g' = 0 /\ firstn 8 uuid = repeat Byte.x00 8).
Proof. apply (Next_total_and_wraps max_gen), max_gen_wf. Defined.

(** ** Sequences of calls *)

Lemma calls_eq (n : nat) :
  forall g, wf g ->
    calls n g =
    Return (map (nth_uuid g) (seq 1 n),
            {| seed := seed g;
               counter := (counter g + Z.of_nat n) mod uint64_modulus |}).
Proof.
  induction n as [|n IH]; intros g Hwf.
  - cbn [calls seq map]. destruct g as [s c]; cbn [seed counter].
    destruct Hwf as [_ Hc]; cbn [counter] in Hc.
    rewrite Z.add_0_r, Z.mod_small by exact Hc. reflexivity.
  - cbn [calls]. rewrite (Next_eq g Hwf). cbn [bind].
    rewrite IH by (split; cbn [seed counter]; [apply Hwf | apply succ64_range]).
    cbn [bind seed counter seq map].
    set (g1 := {| seed := seed g; counter := succ64 (counter g) |}).
    assert (Hshift : forall k, nth_uuid g1 k = nth_uuid g (S k)).
    { intros k. unfold nth_uuid, counter_after, g1, succ64. cbn [seed counter].
      rewrite Zplus_mod_idemp_l. do 3 f_equal. lia. }
    rewrite <- (seq_shift n 1), map_map.
    rewrite (map_ext _ _ Hshift).
    replace ((succ64 (counter g) + Z.of_nat n) mod uint64_modulus)
      with ((counter g + Z.of_nat (S n)) mod uint64_modulus)
      by (unfold succ64; rewrite Zplus_mod_idemp_l; f_equal; lia).
    reflexivity.
Qed.

Lemma nth_error_calls (g : Generator) (n i : nat) (u : list byte) :
  nth_error (map (nth_uuid g) (seq 1 n)) i = Some u ->
  (i < n)%nat /\ u = nth_uuid g (S i).
Proof.
  rewrite nth_error_map, nth_error_seq.
  destruct (Nat.ltb_spec i n) as [Hlt | Hge]; cbn [option_map]; [|discriminate].
  intros E. injection E as <-. split; [exact Hlt | reflexivity].
Qed.

Lemma mod_eq_close (a b : Z) :
  0 < b - a < uint64_modulus ->
  a mod uint64_modulus <> b mod uint64_modulus.
Proof.
  intros Hd E.
  assert (H0 : (b - a) mod uint64_modulus = 0).
  { rewrite Zminus_mod, E, Z.sub_diag. reflexivity. }
  rewrite Z.mod_small in H0 by lia. lia.
Qed.

(** Calls exactly 2^64 apart return the same identifier. *)
Lemma nth_uuid_wraps (g : Generator) (k k' : nat) :
  Z.of_nat k' = Z.of_nat k + 2 ^ 64 -> nth_uuid g k' = nth_uuid g k.
Proof.
  intros H. unfold nth_uuid, counter_after. rewrite H, Z.add_assoc.
  change (2 ^ 64) with (1 * uint64_modulus).
  now rewrite Z_mod_plus_full.
Qed.

(** C2: any two distinct calls of [Next] on one Generator return different
    identifiers as long as fewer than 2^64 calls separate them, and the
    difference is in the leading 8 bytes only: bytes 8..23 of all returned
    identifiers are the same (those of the seed). *)
Theorem distinct_calls_differ_in_leading_bytes (g : Generator) (n : nat) :
  wf g ->
  exists uuids g',
    calls n g = Return (uuids, g') /\
    length uuids = n /\
    forall i j ui uj,
      nth_error uuids i = Some ui ->
      nth_error uuids j = Some uj ->
      length ui = 24%nat /\
      skipn 8 ui = skipn 8 uj /\
      (i <> j -> Z.abs (Z.of_nat j - Z.of_nat i) < 2 ^ 64 ->
       firstn 8 ui <> firstn 8 uj /\ ui <> uj).
Proof.
  intros Hwf. eexists _, _. split; [apply calls_eq, Hwf|].
  split; [now rewrite length_map, length_seq|].
  intros i j ui uj Hi Hj.
  apply nth_error_calls in Hi as [_ ->]. apply nth_error_calls in Hj as [_ ->].
  split; [apply length_compose, Hwf|].
  split; [unfold nth_uuid, counter_after; now rewrite !skipn_8_le_bytes_app|].
  intros Hij Hclose.
  assert (Hfirst : firstn 8 (nth_uuid g (S i)) <> firstn 8 (nth_uuid g (S j))).
  { unfold nth_uuid, counter_after. rewrite !firstn_8_le_bytes_app. intros E.
    apply le_bytes_8_inj in E;
      try (apply Z.mod_pos_bound, uint64_modulus_pos).
    change (2 ^ 64) with uint64_modulus in Hclose.
    destruct (Nat.lt_total i j) as [Hlt | [Heq | Hgt]]; [|contradiction|].
    - revert E. apply mod_eq_close. lia.
    - symmetry in E. revert E. apply mod_eq_close. lia. }
  split; [exact Hfirst | congruence].
Qed.

Lemma distinct_calls_differ_in_leading_bytes_witness :
  exists uuids g',
    calls 3 test_gen = Return (uuids, g') /\
    length uuids = 3%nat /\
    forall i j ui uj,
      nth_error uuids i = Some ui ->
      nth_error uuids j = Some uj ->
      length ui = 24%nat /\
      skipn 8 ui = skipn 8 uj /\
      (i <> j -> Z.abs (Z.of_nat j - Z.of_nat i) < 2 ^ 64 ->
       firstn 8 ui <> firstn 8 uj /\ ui <> uj).
Proof.
  apply (distinct_calls_differ_in_leading_bytes test_gen 3), test_gen_wf.
Defined.

Lemma nth_error_leading_calls (g : Generator) (n i : nat) (x : Z) :
  nth_error (map leading (map (nth_uuid g) (seq 1 n))) i = Some x ->
  (i < n)%nat /\ x = (counter g + Z.of_nat (S i)) mod uint64_modulus.
Proof.
  rewrite nth_error_map.
  destruct (nth_error (map (nth_uuid g) (seq 1 n)) i) as [u|] eqn:E;
    cbn [option_map]; [|discriminate].
  apply nth_error_calls in E as [Hlt ->].
  intros H. injection H as <-. split; [exact Hlt | apply leading_nth_uuid].
Qed.

(** C3, as the code has it: over [n] sequential calls of [Next] the leading
    8 bytes, read as little-endian 64-bit numbers, go up by exactly 1 per
    call modulo 2^64; they go up by exactly 1 as numbers (so strictly
    increase) when the counter does not pass 2^64 - 1 during these calls. *)
Theorem leading_values_advance_by_one (g : Generator) (n : nat) :
  wf g ->
  exists uuids g',
    calls n g = Return (uuids, g') /\
    length uuids = n /\
    increasing_by_one_mod (map leading uuids) /\
    (counter g + Z.of_nat n < 2 ^ 64 -> increasing_by_one (map leading uuids)).
Proof.
  intros Hwf. eexists _, _. split; [apply calls_eq, Hwf|].
  split; [now rewrite length_map, length_seq|].
  split.
  - intros i x y Hx Hy.
    apply nth_error_leading_calls in Hx as [_ ->].
    apply nth_error_leading_calls in Hy as [_ ->].
    rewrite Zplus_mod_idemp_l. f_equal. lia.
  - intros Hbound i x y Hx Hy.
    apply nth_error_leading_calls in Hx as [_ ->].
    apply nth_error_leading_calls in Hy as [Hlt ->].
    destruct Hwf as [_ Hc]. change (2 ^ 64) with uint64_modulus in Hbound.
    rewrite !Z.mod_small by lia. lia.
Qed.

Lemma leading_values_advance_by_one_witness :
  exists uuids g',
    calls 3 test_gen = Return (uuids, g') /\
    length uuids = 3%nat /\
    increasing_by_one_mod (map leading uuids) /\
    (counter test_gen + Z.of_nat 3 < 2 ^ 64 ->
     increasing_by_one (map leading uuids)).
Proof. apply (leading_values_advance_by_one test_gen 3), test_gen_wf. Defined.

(** C3 as stated fails when the counter wraps: the Generator built from the
    seed [wrap_buf] returns leading values 2^64 - 1 and then 0. *)
Lemma leading_values_wrap_counterexample :
  NewGenerator (bytes_NewReader wrap_buf) = Return (Some wrap_gen, None) /\
  wf wrap_gen /\
  exists uuids g',
    calls 2 wrap_gen = Return (uuids, g') /\
    map leading uuids = [2 ^ 64 - 1; 0] /\
    ~ increasing_by_one (map leading uuids).
Proof.
  split; [vm_compute; reflexivity|].
  split; [split; [reflexivity | split; vm_compute; congruence]|].
  eexists _, _. split; [vm_compute; reflexivity|].
  split; [vm_compute; reflexivity|].
  intros H. specialize (H 0%nat _ _ eq_refl eq_refl).
  vm_compute in H. discriminate H.
Qed.

(** ** Concurrent callers *)

Lemma start_eq (g : Generator) :
  wf g -> {| seed := seed g; counter := counter_after g 0 |} = g.
Proof.
  intros [_ Hc]. unfold counter_after. destruct g as [s c].
  cbn [seed counter] in *.
  rewrite Z.add_0_r, Z.mod_small by exact Hc. reflexivity.
Qed.

Section Interleaving.

Variable g : Generator.
Hypothesis g_wf : wf g.

Lemma world_inv_start : world_inv g (start g).
Proof.
  unfold world_inv, start, tickets.
  cbn [shared increments in_flight returned map app].
  rewrite (start_eq g g_wf).
  repeat split; constructor.
Qed.

Lemma tickets_return (before after : list (nat * Z)) (t : nat) (x : Z)
      (u : list byte) (done : list (nat * list byte)) :
  Permutation
    (map fst (before ++ (t, x) :: after) ++ map fst done)
    (map fst (before ++ after) ++ map fst (done ++ [(t, u)])).
Proof.
  rewrite !map_app. cbn [map fst].
  rewrite <- !app_assoc. apply Permutation_app_head.
  cbn [app]. rewrite app_assoc.
  apply (Permutation_cons_append (map fst after ++ map fst done) t).
Qed.

Lemma world_inv_step (w w' : World) :
  world_inv g w -> step w w' -> world_inv g w'.
Proof.
  intros (Hsh & Hfl & Hret & Hnd & Hrng) Hstep.
  destruct Hstep as [w x g' Hadd | w before after t x head Hfl_eq Hput].
  - unfold atomic_AddUint64 in Hadd. rewrite Hsh in Hadd.
    cbn [seed counter] in Hadd. injection Hadd as <- <-.
    assert (Hx : (counter_after g (increments w) + 1) mod uint64_modulus
                 = counter_after g (S (increments w))).
    { unfold counter_after. rewrite Zplus_mod_idemp_l. f_equal. lia. }
    fold (counter_after g (increments w)). rewrite Hx.
    unfold world_inv, tickets in *.
    cbn [shared increments in_flight returned map fst app].
    split; [reflexivity|].
    split; [constructor; [reflexivity | exact Hfl]|].
    split; [exact Hret|].
    split.
    + constructor; [|exact Hnd].
      intros Hin. rewrite Forall_forall in Hrng.
      apply Hrng in Hin. lia.
    + constructor; [lia|].
      eapply Forall_impl; [|exact Hrng]. cbn beta. intros a Ha. lia.
  - unfold world_inv, tickets in *.
    cbn [shared increments in_flight returned].
    rewrite Hfl_eq in Hfl, Hnd, Hrng.
    apply Forall_app in Hfl as [Hbefore Hrest].
    apply Forall_cons_iff in Hrest as [Hx Hafter]. cbn [fst snd] in Hx.
    assert (Hu : head ++ skipn 8 (seed (shared w)) = nth_uuid g t).
    { rewrite Hsh in Hput |- *. cbn [seed] in Hput |- *.
      rewrite PutUint64_head in Hput by apply g_wf.
      assert (Hhead : head = le_bytes 8 x) by congruence.
      rewrite Hhead, Hx. reflexivity. }
    rewrite Hu.
    pose proof (tickets_return before after t x (nth_uuid g t) (returned w))
      as Hperm.
    split; [exact Hsh|].
    split; [apply Forall_app; split; assumption|].
    split; [apply Forall_app; split; [exact Hret | repeat constructor]|].
    split.
    + eapply Permutation_NoDup; [exact Hperm | exact Hnd].
    + eapply Permutation_Forall; [exact Hperm | exact Hrng].
Qed.

Lemma world_inv_reachable (w : World) : reachable g w -> world_inv g w.
Proof.
  induction 1 as [|w w' _ IH Hstep];
    [apply world_inv_start | exact (world_inv_step w w' IH Hstep)].
Qed.

(** However the calls of any number of goroutines interleave, two calls
    that have returned got identifiers with the same bytes 8..23, their
    increments have different ordinals, and when these are less than 2^64
    apart the leading 8 bytes differ. *)
Theorem interleaved_calls_differ (w : World) (p q : nat)
        (c1 c2 : nat * list byte) :
  reachable g w ->
  nth_error (returned w) p = Some c1 ->
  nth_error (returned w) q = Some c2 ->
  skipn 8 (snd c1) = skipn 8 (snd c2) /\
  (p <> q -> fst c1 <> fst c2) /\
  (fst c1 <> fst c2 ->
   Z.abs (Z.of_nat (fst c1) - Z.of_nat (fst c2)) < 2 ^ 64 ->
   firstn 8 (snd c1) <> firstn 8 (snd c2)).
Proof.
  intros Hreach H1 H2.
  destruct (world_inv_reachable w Hreach) as (_ & _ & Hret & Hnd & _).
  rewrite Forall_forall in Hret.
  pose proof (Hret c1 (nth_error_In _ _ H1)) as E1.
  pose proof (Hret c2 (nth_error_In _ _ H2)) as E2.
  rewrite E1, E2. unfold nth_uuid, counter_after.
  rewrite !skipn_8_le_bytes_app, !firstn_8_le_bytes_app.
  split; [reflexivity|]. split.
  - intros Hpq Heq. apply Hpq.
    unfold tickets in Hnd. apply NoDup_app_remove_l in Hnd.
    rewrite NoDup_nth_error in Hnd. apply Hnd.
    + rewrite length_map. apply nth_error_Some. congruence.
    + rewrite !nth_error_map, H1, H2. cbn [option_map]. now rewrite Heq.
  - intros Hne Hclose E.
    apply le_bytes_8_inj in E;
      try (apply Z.mod_pos_bound, uint64_modulus_pos).
    change (2 ^ 64) with uint64_modulus in Hclose.
    destruct (Nat.lt_total (fst c1) (fst c2)) as [Hlt | [Heq | Hgt]];
      [|contradiction|].
    + revert E. apply mod_eq_close. lia.
    + symmetry in E. revert E. apply mod_eq_close. lia.
Qed.

(** [TestUniqueness]: as long as no more than 2^64 increments have taken
    effect, no identifier has been returned twice. *)
Corollary interleaved_calls_unique (w : World) :
  reachable g w ->
  Z.of_nat (increments w) <= 2 ^ 64 ->
  NoDup (map snd (returned w)).
Proof.
  intros Hreach Hfew.
  destruct (world_inv_reachable w Hreach) as (_ & _ & _ & _ & Hrng).
  unfold tickets in Hrng. apply Forall_app in Hrng as [_ Hrng].
  rewrite Forall_forall in Hrng.
  apply NoDup_nth_error. intros p q Hp E.
  rewrite length_map in Hp. rewrite !nth_error_map in E.
  destruct (nth_error (returned w) p) as [c1|] eqn:H1;
    [|apply nth_error_None in H1; lia].
  destruct (nth_error (returned w) q) as [c2|] eqn:H2;
    [|discriminate E].
  cbn [option_map] in E. injection E as E.
  destruct (interleaved_calls_differ w p q c1 c2 Hreach H1 H2)
    as (_ & Hord & Hlead).
  destruct (Nat.eq_dec p q) as [|Hpq]; [assumption | exfalso].
  apply (Hlead (Hord Hpq)); [|now rewrite E].
  assert (Hr1 : (1 <= fst c1 <= increments w)%nat)
    by (apply Hrng, in_map, (nth_error_In _ _ H1)).
  assert (Hr2 : (1 <= fst c2 <= increments w)%nat)
    by (apply Hrng, in_map, (nth_error_In _ _ H2)).
  lia.
Qed.

(** Calls made one after the other are one of the interleavings. *)
Lemma sequential_world_reachable (n : nat) :
  reachable g
    {| shared := {| seed := seed g; counter := counter_after g n |};
       increments := n;
       in_flight := [];
       returned := map (fun k => (k, nth_uuid g k)) (seq 1 n) |}.
Proof.
  induction n as [|n IH].
  - rewrite (start_eq g g_wf). apply reachable_start.
  - eapply reachable_step; [eapply reachable_step; [exact IH|]|].
    + apply (step_increment _ (counter_after g (S n))
               {| seed := seed g; counter := counter_after g (S n) |}).
      unfold atomic_AddUint64, counter_after. cbn [shared seed counter].
      rewrite Zplus_mod_idemp_l.
      replace (counter g + Z.of_nat n + 1) with (counter g + Z.of_nat (S n))
        by lia.
      reflexivity.
    + cbn [shared increments in_flight returned].
      rewrite seq_S, map_app. cbn [map Nat.add].
      apply (step_return
               {| shared := {| seed := seed g; counter := counter_after g (S n) |};
                  increments := S n;
                  in_flight := [(S n, counter_after g (S n))];
                  returned := map (fun k => (k, nth_uuid g k)) (seq 1 n) |}
               [] [] (S n) (counter_after g (S n)) (le_bytes 8 (counter_after g (S n))));
        [reflexivity|].
      cbn [shared seed].
      apply PutUint64_head, g_wf.
Qed.

Lemma sequential_calls_reachable (n : nat) (uuids : list (list byte))
      (g' : Generator) :
  calls n g = Return (uuids, g') ->
  exists w,
    reachable g w /\ shared w = g' /\ in_flight w = [] /\
    map snd (returned w) = uuids.
Proof.
  rewrite (calls_eq n g g_wf). intros E. injection E as <- <-.
  eexists. split; [apply (sequential_world_reachable n)|].
  cbn [shared in_flight returned]. repeat split.
  rewrite map_map. reflexivity.
Qed.

End Interleaving.

(** ** The constructors *)

Lemma rand_Read_length (r : Reader) (b : list byte) :
  length (fst (fst (rand_Read r b))) = length b.
Proof.
  unfold rand_Read. cbn [fst]. rewrite length_app, length_skipn.
  pose proof (firstn_le_length (length b) (supplied (r (length b)))). lia.
Qed.

Lemma drawn_seed_length (r : Reader) : length (drawn_seed r) = 24%nat.
Proof. unfold drawn_seed. now rewrite rand_Read_length, repeat_length. Qed.

Lemma drawn_seed_full (r : Reader) :
  length (supplied (r 24%nat)) = 24%nat -> drawn_seed r = supplied (r 24%nat).
Proof.
  intros Hlen. unfold drawn_seed, rand_Read. cbn [fst].
  rewrite repeat_length, firstn_all2 by lia.
  rewrite skipn_all2 by (rewrite repeat_length; lia).
  apply app_nil_r.
Qed.

Lemma NewGenerator_eq (r : Reader) :
  NewGenerator r =
  match read_err (r 24%nat) with
  | Some e =>
      Return (None, Some ("cannot generate random seed: " ++ e)%string)
  | None =>
      Return (Some {| seed := drawn_seed r;
                      counter := le_value (firstn 8 (drawn_seed r)) |}, None)
  end.
Proof.
  unfold NewGenerator. cbv zeta. cbn [seed counter].
  pose proof (drawn_seed_length r) as Hlen. unfold drawn_seed in *.
  destruct (rand_Read r (repeat Byte.x00 24)) as [[s n] err] eqn:E.
  assert (Herr : err = read_err (r 24%nat)).
  { unfold rand_Read in E. rewrite repeat_length in E. now injection E. }
  cbn [fst] in Hlen |- *.
  rewrite <- Herr. destruct err as [e|]; [reflexivity|].
  rewrite Uint64_le_value by (rewrite length_firstn; lia).
  cbn [bind]. rewrite firstn_firstn. reflexivity.
Qed.

Lemma bytes_NewReader_contract (data : list byte) :
  ReadFull_contract (bytes_NewReader data).
Proof.
  intros n. unfold bytes_NewReader.
  destruct (Nat.leb_spec n (length data)) as [Hle | Hgt]; cbn [supplied read_err].
  - rewrite length_firstn. split; [lia | split; [lia | reflexivity]].
  - split; [lia | split; [discriminate | lia]].
Qed.

(** C5: [NewGenerator] returns an error exactly when the random source does
    not supply the 24 bytes, and fails in no other way (it does not panic);
    on success the Generator keeps the 24 bytes drawn as its seed and its
    counter is the first 8 of them read as a little-endian number. *)
Theorem NewGenerator_fails_iff_source_fails (r : Reader) :
  ReadFull_contract r ->
  exists p e,
    NewGenerator r = Return (p, e) /\
    (e <> None <-> length (supplied (r 24%nat)) <> 24%nat) /\
    (e <> None <-> read_err (r 24%nat) <> None) /\
    (e = None ->
     p = Some {| seed := supplied (r 24%nat);
                 counter := le_value (firstn 8 (supplied (r 24%nat))) |}).
Proof.
  intros Hr. destruct (Hr 24%nat) as [_ Hiff].
  rewrite NewGenerator_eq.
  destruct (read_err (r 24%nat)) as [e|] eqn:E.
  - eexists _, _. split; [reflexivity|].
    split; [|split; [|discriminate]].
    + split; [intros _ Hlen; apply Hiff in Hlen; discriminate | discriminate].
    + split; discriminate.
  - eexists _, _. split; [reflexivity|].
    assert (Hlen : length (supplied (r 24%nat)) = 24%nat) by now apply Hiff.
    split; [|split].
    + split; [congruence | intros H; contradiction].
    + split; congruence.
    + intros _. now rewrite (drawn_seed_full r Hlen).
Qed.

Lemma NewGenerator_fails_iff_source_fails_witness :
  exists p e,
    NewGenerator (bytes_NewReader test_buf) = Return (p, e) /\
    (e <> None <->
     length (supplied (bytes_NewReader test_buf 24%nat)) <> 24%nat) /\
    (e <> None <-> read_err (bytes_NewReader test_buf 24%nat) <> None) /\
    (e = None ->
     p = Some {| seed := supplied (bytes_NewReader test_buf 24%nat);
                 counter :=
                   le_value
                     (firstn 8 (supplied (bytes_NewReader test_buf 24%nat))) |}).
Proof.
  apply (NewGenerator_fails_iff_source_fails (bytes_NewReader test_buf)).
  apply bytes_NewReader_contract.
Defined.

(** C10: when [NewGenerator] returns an error, the Generator it returns is
    [nil]. *)
Theorem NewGenerator_error_gives_nil
  (r : Reader) (p : option Generator) (e : error) :
  NewGenerator r = Return (p, Some e) -> p = None.
Proof.
  rewrite NewGenerator_eq.
  destruct (read_err (r 24%nat)); intros H; injection H; congruence.
Qed.

Lemma NewGenerator_error_gives_nil_witness :
  NewGenerator no_entropy = Return (None, Some no_entropy_error) /\
  (None : option Generator) = None.
Proof.
  split; [reflexivity|].
  apply (NewGenerator_error_gives_nil no_entropy None no_entropy_error).
  reflexivity.
Defined.

(** C7: [MustNewGenerator] does what [NewGenerator] does: when
    [NewGenerator] succeeds it returns the same Generator, and when
    [NewGenerator] returns an error it panics with that error. *)
Theorem MustNewGenerator_as_NewGenerator (r : Reader) :
  exists p e,
    NewGenerator r = Return (p, e) /\
    (e = None -> p <> None /\ MustNewGenerator r = Return p) /\
    (forall err, e = Some err -> MustNewGenerator r = Panic err).
Proof.
  unfold MustNewGenerator. rewrite NewGenerator_eq.
  destruct (read_err (r 24%nat)) as [e0|]; eexists _, _;
    (split; [reflexivity|]); cbn [bind]; split.
  - discriminate.
  - intros err H. now injection H as <-.
  - intros _. split; [discriminate | reflexivity].
  - discriminate.
Qed.

(** C4: when the random source supplies the 24 bytes [b], the first [Next]
    of the new Generator returns [b] with its leading 8 bytes replaced by
    the little-endian encoding of (the number in [b[0..7]]) + 1, and the
    second returns the same bytes 8..23 after the encoding of that
    number + 2. *)
Theorem fixed_entropy_first_two_calls (r : Reader) (b : list byte) :
  length b = 24%nat ->
  r 24%nat = {| supplied := b; read_err := None |} ->
  exists g u1 g1 u2 g2,
    NewGenerator r = Return (Some g, None) /\
    Next g = Return (u1, g1) /\
    Next g1 = Return (u2, g2) /\
    u1 = le_bytes 8 (le_value (firstn 8 b) + 1) ++ skipn 8 b /\
    u2 = le_bytes 8 (le_value (firstn 8 b) + 2) ++ skipn 8 b.
Proof.
  intros Hlen Hr.
  assert (Hseed : drawn_seed r = b).
  { rewrite drawn_seed_full; rewrite Hr; [reflexivity | exact Hlen]. }
  pose proof (le_value_bound (firstn 8 b)) as Hc.
  rewrite length_firstn, Hlen in Hc. change (2 ^ _) with uint64_modulus in Hc.
  set (g := {| seed := b; counter := le_value (firstn 8 b) |}).
  assert (Hwf : wf g) by (split; [exact Hlen | exact Hc]).
  set (g1 := {| seed := b; counter := succ64 (counter g) |}).
  assert (Hwf1 : wf g1) by (split; [exact Hlen | apply succ64_range]).
  exists g, (le_bytes 8 (succ64 (counter g)) ++ skipn 8 b), g1.
  eexists _, _.
  split; [rewrite NewGenerator_eq, Hr, Hseed; reflexivity|].
  split; [apply (Next_eq g Hwf)|].
  split; [apply (Next_eq g1 Hwf1)|].
  subst g1 g. cbn [seed counter]. unfold succ64. split.
  - now rewrite le_bytes_8_mod.
  - rewrite <- (le_bytes_8_mod (le_value (firstn 8 b) + 2)).
    rewrite Zplus_mod_idemp_l. do 3 f_equal. lia.
Qed.

Lemma fixed_entropy_first_two_calls_witness :
  exists g u1 g1 u2 g2,
    NewGenerator (bytes_NewReader test_buf) = Return (Some g, None) /\
    Next g = Return (u1, g1) /\
    Next g1 = Return (u2, g2) /\
    u1 = le_bytes 8 (le_value (firstn 8 test_buf) + 1) ++ skipn 8 test_buf /\
    u2 = le_bytes 8 (le_value (firstn 8 test_buf) + 2) ++ skipn 8 test_buf.
Proof.
  apply (fixed_entropy_first_two_calls (bytes_NewReader test_buf) test_buf);
    reflexivity.
Defined.

(** [TestUUID]: with the source 01 02 ... 18, the first identifier is
    02 02 03 ... 18 and the second 03 02 03 ... 18. *)
Example TestUUID :
  exists g g1 g2,
    NewGenerator (bytes_NewReader test_buf) = Return (Some g, None) /\
    Next g = Return (Byte.x02 :: skipn 1 test_buf, g1) /\
    Next g1 = Return (Byte.x03 :: skipn 1 test_buf, g2).
Proof. eexists _, _, _. repeat split; vm_compute; reflexivity. Qed.

(** ** Further properties of the Generator *)

Lemma le_value_app (a b : list byte) :
  le_value (a ++ b) = le_value a + 2 ^ (8 * Z.of_nat (length a)) * le_value b.
Proof.
  induction a as [|x a IH]; [cbn [app le_value length]; lia|].
  cbn [app le_value length]. rewrite IH.
  replace (8 * Z.of_nat (S (length a))) with (8 + 8 * Z.of_nat (length a))
    by lia.
  rewrite Z.pow_add_r by lia. ring.
Qed.

Lemma nth_uuid_same (g1 g2 : Generator) (k : nat) :
  counter g1 = counter g2 ->
  skipn 8 (seed g1) = skipn 8 (seed g2) ->
  nth_uuid g1 k = nth_uuid g2 k.
Proof.
  intros Hc Hs. unfold nth_uuid, counter_after. now rewrite Hc, Hs.
Qed.

Lemma wf_after (g : Generator) (n : nat) :
  wf g ->
  wf {| seed := seed g;
        counter := (counter g + Z.of_nat n) mod uint64_modulus |}.
Proof.
  intros [Hlen _]. split; cbn [seed counter];
    [exact Hlen | apply Z.mod_pos_bound, uint64_modulus_pos].
Qed.

(** After any number of calls the Generator is still well formed, its seed
    is the one it was built with and its counter has advanced by the number
    of calls modulo 2^64; every identifier returned has 24 bytes. *)
Theorem calls_keep_seed_and_advance_counter (g : Generator) (n : nat) :
  wf g ->
  exists uuids g',
    calls n g = Return (uuids, g') /\
    length uuids = n /\
    Forall (fun uuid => length uuid = 24%nat) uuids /\
    wf g' /\
    seed g' = seed g /\
    counter g' = (counter g + Z.of_nat n) mod 2 ^ 64.
Proof.
  intros Hwf. eexists _, _. split; [apply calls_eq, Hwf|].
  split; [now rewrite length_map, length_seq|].
  split.
  - apply Forall_forall. intros u Hu. apply in_map_iff in Hu as (k & <- & _).
    apply length_compose, Hwf.
  - split; [apply wf_after, Hwf|]. split; reflexivity.
Qed.

Lemma calls_keep_seed_and_advance_counter_witness :
  exists uuids g',
    calls 5 test_gen = Return (uuids, g') /\
    length uuids = 5%nat /\
    Forall (fun uuid => length uuid = 24%nat) uuids /\
    wf g' /\
    seed g' = seed test_gen /\
    counter g' = (counter test_gen + Z.of_nat 5) mod 2 ^ 64.
Proof.
  apply (calls_keep_seed_and_advance_counter test_gen 5), test_gen_wf.
Defined.

(** The first 8 bytes of the seed are ignored once the counter is set: two
    Generators with the same counter and the same seed bytes 8..23 return
    the same identifiers, call after call. *)
Theorem leading_seed_bytes_are_ignored (g1 g2 : Generator) (n : nat) :
  wf g1 -> wf g2 ->
  counter g1 = counter g2 ->
  skipn 8 (seed g1) = skipn 8 (seed g2) ->
  exists uuids g1' g2',
    calls n g1 = Return (uuids, g1') /\
    calls n g2 = Return (uuids, g2') /\
    counter g1' = counter g2'.
Proof.
  intros Hwf1 Hwf2 Hc Hs.
  rewrite (calls_eq n g1 Hwf1), (calls_eq n g2 Hwf2).
  eexists _, _, _. split; [reflexivity|]. split.
  - do 2 f_equal. apply map_ext. intros k. symmetry.
    now apply nth_uuid_same.
  - cbn [counter]. now rewrite Hc.
Qed.

Lemma test_gen'_wf : wf test_gen'.
Proof. split; [reflexivity | split; vm_compute; congruence]. Qed.

Lemma leading_seed_bytes_are_ignored_witness :
  exists uuids g1' g2',
    calls 3 test_gen = Return (uuids, g1') /\
    calls 3 test_gen' = Return (uuids, g2') /\
    counter g1' = counter g2'.
Proof.
  apply (leading_seed_bytes_are_ignored test_gen test_gen' 3);
    [apply test_gen_wf | apply test_gen'_wf | reflexivity | reflexivity].
Defined.

(** The identifiers are not unguessable: a Generator built from a source
    that supplies an identifier [uuid] returned earlier goes on exactly where
    the Generator that returned [uuid] goes on. *)
Theorem NewGenerator_on_identifier_resumes
        (g g1 : Generator) (uuid : list byte) (r : Reader) (n : nat) :
  wf g ->
  Next g = Return (uuid, g1) ->
  r 24%nat = {| supplied := uuid; read_err := None |} ->
  exists g2 uuids ga gb,
    NewGenerator r = Return (Some g2, None) /\
    calls n g1 = Return (uuids, ga) /\
    calls n g2 = Return (uuids, gb).
Proof.
  intros Hwf HNext Hr. rewrite (Next_eq g Hwf) in HNext.
  assert (Hu : uuid = le_bytes 8 (succ64 (counter g)) ++ skipn 8 (seed g))
    by congruence.
  assert (Hg1 : g1 = {| seed := seed g; counter := succ64 (counter g) |})
    by congruence.
  assert (Hlen : length uuid = 24%nat)
    by (rewrite Hu; apply length_compose, Hwf).
  assert (Hlead : le_value (firstn 8 uuid) = succ64 (counter g)).
  { rewrite Hu, firstn_8_le_bytes_app.
    apply le_value_le_bytes_8, succ64_range. }
  set (g2 := {| seed := uuid; counter := le_value (firstn 8 uuid) |}).
  assert (Hwf1 : wf g1)
    by (rewrite Hg1; split; [apply Hwf | apply succ64_range]).
  assert (Hwf2 : wf g2).
  { unfold g2. split; cbn [seed counter]; [exact Hlen|].
    rewrite Hlead. apply succ64_range. }
  assert (Hsame : forall k, nth_uuid g2 k = nth_uuid g1 k).
  { intros k. apply nth_uuid_same; unfold g2.
    - cbn [counter]. rewrite Hlead, Hg1. reflexivity.
    - cbn [seed]. rewrite Hu, skipn_8_le_bytes_app, Hg1. reflexivity. }
  exists g2, (map (nth_uuid g1) (seq 1 n)).
  rewrite (calls_eq n g1 Hwf1), (calls_eq n g2 Hwf2).
  rewrite (map_ext _ _ Hsame).
  eexists _, _. split; [|split; reflexivity].
  rewrite NewGenerator_eq, Hr.
  rewrite drawn_seed_full by (rewrite Hr; exact Hlen).
  rewrite Hr. reflexivity.
Qed.

Lemma NewGenerator_on_identifier_resumes_witness :
  exists g2 uuids ga gb,
    NewGenerator (identifier_Reader test_uuid) = Return (Some g2, None) /\
    calls 3 test_gen1 = Return (uuids, ga) /\
    calls 3 g2 = Return (uuids, gb).
Proof.
  apply (NewGenerator_on_identifier_resumes
           test_gen test_gen1 test_uuid (identifier_Reader test_uuid) 3);
    [apply test_gen_wf | vm_compute; reflexivity | reflexivity].
Defined.

(** Each identifier is adjacent to the one returned before it: it is the
    previous identifier with its leading 8 bytes replaced by their number
    plus 1, so that, as little-endian numbers of 192 bits, the two differ by
    exactly 1 unless the leading 8 bytes wrap from 2^64 - 1 to 0. *)
Theorem next_identifier_is_adjacent
        (g g1 g2 : Generator) (u v : list byte) :
  wf g ->
  Next g = Return (u, g1) ->
  Next g1 = Return (v, g2) ->
  v = le_bytes 8 (leading u + 1) ++ skipn 8 u /\
  (leading u < 2 ^ 64 - 1 -> le_value v = le_value u + 1) /\
  (leading u = 2 ^ 64 - 1 -> le_value v = le_value u - (2 ^ 64 - 1)).
Proof.
  intros Hwf Hu Hv.
  assert (Hwf1 : wf g1) by exact (Next_wf g g1 u Hwf Hu).
  rewrite (Next_eq g Hwf) in Hu. rewrite (Next_eq g1 Hwf1) in Hv.
  assert (Eu : u = le_bytes 8 (succ64 (counter g)) ++ skipn 8 (seed g))
    by congruence.
  assert (Eg1 : g1 = {| seed := seed g; counter := succ64 (counter g) |})
    by congruence.
  assert (Ev : v = le_bytes 8 (succ64 (counter g1)) ++ skipn 8 (seed g1))
    by congruence.
  rewrite Eg1 in Ev. cbn [seed counter] in Ev.
  pose proof (succ64_range (counter g)) as Hc1.
  assert (Hlead : leading u = succ64 (counter g)).
  { unfold leading. rewrite Eu, firstn_8_le_bytes_app.
    now apply le_value_le_bytes_8. }
  assert (Htail : skipn 8 u = skipn 8 (seed g))
    by (rewrite Eu; apply skipn_8_le_bytes_app).
  rewrite Hlead, Htail.
  split; [rewrite Ev; unfold succ64 at 1; now rewrite le_bytes_8_mod|].
  rewrite Ev, Eu, !le_value_app, !length_le_bytes.
  rewrite !le_value_le_bytes_8 by apply succ64_range.
  change (2 ^ (8 * Z.of_nat 8)) with uint64_modulus.
  change (2 ^ 64) with uint64_modulus.
  remember (succ64 (counter g)) as c1 eqn:Ec1. unfold succ64.
  split; intros Hl.
  - rewrite Z.mod_small by lia. lia.
  - rewrite Hl. replace (uint64_modulus - 1 + 1) with uint64_modulus by lia.
    rewrite Z_mod_same_full. lia.
Qed.

Lemma next_identifier_is_adjacent_witness :
  exists u g1 v g2,
    Next max_gen = Return (u, g1) /\
    Next g1 = Return (v, g2) /\
    v = le_bytes 8 (leading u + 1) ++ skipn 8 u /\
    (leading u < 2 ^ 64 - 1 -> le_value v = le_value u + 1) /\
    (leading u = 2 ^ 64 - 1 -> le_value v = le_value u - (2 ^ 64 - 1)).
Proof.
  eexists _, _, _, _.
  split; [vm_compute; reflexivity|]. split; [vm_compute; reflexivity|].
  eapply (next_identifier_is_adjacent max_gen);
    [apply max_gen_wf | vm_compute; reflexivity | vm_compute; reflexivity].
Defined.

(** What [MustNewGenerator] returns is never [nil], and [Next] can be called
    on it any number of times without a panic: it is a well-formed Generator
    whose counter is the number in the first 8 bytes of its seed. *)
Theorem MustNewGenerator_result_is_usable
        (r : Reader) (p : option Generator) (n : nat) :
  MustNewGenerator r = Return p ->
  exists g uuids g',
    p = Some g /\
    wf g /\
    counter g = le_value (firstn 8 (seed g)) /\
    calls n g = Return (uuids, g') /\
    length uuids = n.
Proof.
  unfold MustNewGenerator. rewrite NewGenerator_eq.
  destruct (read_err (r 24%nat)) as [e|]; cbn [bind]; [discriminate|].
  intros E. injection E as <-.
  set (g := {| seed := drawn_seed r;
               counter := le_value (firstn 8 (drawn_seed r)) |}).
  assert (Hwf : wf g).
  { split; cbn [seed counter]; [apply drawn_seed_length|].
    pose proof (le_value_bound (firstn 8 (drawn_seed r))) as Hb.
    rewrite length_firstn, drawn_seed_length in Hb. exact Hb. }
  exists g. rewrite (calls_eq n g Hwf). eexists _, _.
  split; [reflexivity|]. split; [exact Hwf|]. split; [reflexivity|].
  split; [reflexivity | now rewrite length_map, length_seq].
Qed.

Lemma MustNewGenerator_result_is_usable_witness :
  exists g uuids g',
    Some test_gen = Some g /\
    wf g /\
    counter g = le_value (firstn 8 (seed g)) /\
    calls 4 g = Return (uuids, g') /\
    length uuids = 4%nat.
Proof.
  apply (MustNewGenerator_result_is_usable
           (bytes_NewReader test_buf) (Some test_gen) 4).
  vm_compute. reflexivity.
Defined.

(** [NewGenerator] on a fixed byte source, as the tests install one: with at
    least 24 bytes it succeeds and uses the first 24 only; with fewer it
    fails with the source's error after the text of [NewGenerator], which is
    [EOF] for an empty source and [unexpected EOF] otherwise. *)
Theorem NewGenerator_on_fixed_bytes (data : list byte) :
  NewGenerator (bytes_NewReader data) =
  if (24 <=? length data)%nat then
    Return (Some {| seed := firstn 24 data;
                    counter := le_value (firstn 8 data) |}, None)
  else
    Return (None,
            Some (match data with
                  | [] => "cannot generate random seed: EOF"%string
                  | _ :: _ =>
                      "cannot generate random seed: unexpected EOF"%string
                  end)).
Proof.
  rewrite NewGenerator_eq. unfold bytes_NewReader at 1.
  destruct (Nat.leb_spec 24 (length data)) as [Hle | Hlt]; cbn [read_err].
  - assert (Hs : drawn_seed (bytes_NewReader data) = firstn 24 data).
    { rewrite drawn_seed_full; unfold bytes_NewReader;
        destruct (Nat.leb_spec 24 (length data)); try lia; cbn [supplied];
        [reflexivity | rewrite length_firstn; lia]. }
    rewrite Hs, firstn_firstn. reflexivity.
  - destruct data; reflexivity.
Qed.

(** [PutUint64] and [Uint64], as [Next] and [NewGenerator] use them: both
    panic on fewer than 8 bytes; otherwise [PutUint64] rewrites the first 8
    bytes only, [Uint64] reads back the number written, and writing the
    number read changes nothing. *)
Theorem PutUint64_Uint64_round_trip (b : list byte) (v : Z) :
  0 <= v < 2 ^ 64 ->
  ((length b < 8)%nat ->
   PutUint64 b v = Panic index_out_of_range /\
   Uint64 b = Panic index_out_of_range) /\
  ((8 <= length b)%nat ->
   exists b' x,
     PutUint64 b v = Return b' /\
     length b' = length b /\
     skipn 8 b' = skipn 8 b /\
     Uint64 b' = Return v /\
     Uint64 b = Return x /\
     0 <= x < 2 ^ 64 /\
     PutUint64 b x = Return b).
Proof.
  intros Hv. split; intros Hlen.
  - do 8 (destruct b as [|? b]; [split; reflexivity|]).
    cbn [length] in Hlen. lia.
  - exists (le_bytes 8 v ++ skipn 8 b), (le_value (firstn 8 b)).
    split; [apply PutUint64_le_bytes, Hlen|].
    split; [rewrite length_app, length_le_bytes, length_skipn; lia|].
    split; [apply skipn_8_le_bytes_app|].
    split.
    { rewrite Uint64_le_value
        by (rewrite length_app, length_le_bytes; lia).
      rewrite firstn_8_le_bytes_app. f_equal.
      now apply le_value_le_bytes_8. }
    split; [apply Uint64_le_value, Hlen|].
    pose proof (le_value_bound (firstn 8 b)) as Hb.
    rewrite length_firstn, Nat.min_l in Hb by exact Hlen.
    split; [exact Hb|].
    rewrite PutUint64_le_bytes by exact Hlen.
    pose proof (le_bytes_le_value (firstn 8 b)) as Hrt.
    rewrite length_firstn, Nat.min_l in Hrt by exact Hlen.
    rewrite Hrt, firstn_skipn. reflexivity.
Qed.

Lemma PutUint64_Uint64_round_trip_witness :
  ((length test_buf < 8)%nat ->
   PutUint64 test_buf 258 = Panic index_out_of_range /\
   Uint64 test_buf = Panic index_out_of_range) /\
  ((8 <= length test_buf)%nat ->
   exists b' x,
     PutUint64 test_buf 258 = Return b' /\
     length b' = length test_buf /\
     skipn 8 b' = skipn 8 test_buf /\
     Uint64 b' = Return 258 /\
     Uint64 test_buf = Return x /\
     0 <= x < 2 ^ 64 /\
     PutUint64 test_buf x = Return test_buf).
Proof. apply (PutUint64_Uint64_round_trip test_buf 258). lia. Defined.

Lemma do_event_step (e : event) (w w' : World) :
  do_event e w = Some w' -> step w w'.
Proof.
  destruct e as [|i]; cbn [do_event].
  - destruct (atomic_AddUint64 (shared w) 1) as [x g'] eqn:E.
    intros H. injection H as <-. now apply step_increment.
  - destruct (nth_error (in_flight w) i) as [[t x]|] eqn:Hi; [|discriminate].
    destruct (PutUint64 (firstn 8 (seed (shared w))) x) as [head|] eqn:Hput;
      [|discriminate].
    intros H. injection H as <-.
    apply (step_return w (firstn i (in_flight w)) (skipn (S i) (in_flight w))
             t x head); [|exact Hput].
    apply nth_error_split in Hi as (l1 & l2 & Hl & Hlen).
    rewrite Hl at 2 3. rewrite <- Hlen.
    rewrite firstn_app, firstn_all, Nat.sub_diag, app_nil_r.
    replace (S (length l1)) with (length l1 + 1)%nat by lia.
    rewrite skipn_app, skipn_all2 by lia.
    replace (length l1 + 1 - length l1)%nat with 1%nat by lia.
    exact Hl.
Qed.

Lemma run_reachable (g : Generator) (schedule : list event) :
  forall w w',
    reachable g w -> run schedule w = Some w' -> reachable g w'.
Proof.
  induction schedule as [|e schedule IH]; intros w w' Hw; cbn [run].
  - intros H. injection H as <-. exact Hw.
  - destruct (do_event e w) as [w1|] eqn:E; [|discriminate].
    apply IH. eapply reachable_step; [exact Hw | exact (do_event_step e w w1 E)].
Qed.

(** It is safe to call [Next] from several goroutines, as [TestUniqueness]
    checks: however the scheduler interleaves the increments and the
    returns of the calls, as long as no more than 2^64 increments have taken
    effect no identifier is returned twice, and not even the first 16 bytes
    of one are. *)
Theorem scheduled_calls_never_repeat
        (g : Generator) (schedule : list event) (w : World) :
  wf g ->
  run schedule (start g) = Some w ->
  Z.of_nat (increments w) <= 2 ^ 64 ->
  NoDup (map snd (returned w)) /\
  NoDup (map (fun c => firstn 16 (snd c)) (returned w)).
Proof.
  intros Hwf Hrun Hfew.
  assert (Hreach : reachable g w)
    by exact (run_reachable g schedule _ _ (reachable_start g) Hrun).
  assert (H16 : NoDup (map (fun c => firstn 16 (snd c)) (returned w))).
  { destruct (world_inv_reachable g Hwf w Hreach) as (_ & _ & _ & _ & Hrng).
    unfold tickets in Hrng. apply Forall_app in Hrng as [_ Hrng].
    rewrite Forall_forall in Hrng.
    apply NoDup_nth_error. intros p q Hp E.
    rewrite length_map in Hp. rewrite !nth_error_map in E.
    destruct (nth_error (returned w) p) as [c1|] eqn:H1;
      [|apply nth_error_None in H1; lia].
    destruct (nth_error (returned w) q) as [c2|] eqn:H2; [|discriminate E].
    cbn [option_map] in E.
    apply (f_equal (option_map (firstn 8))) in E.
    cbn [option_map] in E. rewrite !firstn_firstn in E.
    change (Nat.min 8 16) with 8%nat in E.
    destruct (interleaved_calls_differ g Hwf w p q c1 c2 Hreach H1 H2)
      as (_ & Hord & Hlead).
    destruct (Nat.eq_dec p q) as [|Hpq]; [assumption | exfalso].
    apply (Hlead (Hord Hpq)).
    - assert (Hr1 : (1 <= fst c1 <= increments w)%nat)
        by (apply Hrng, in_map, (nth_error_In _ _ H1)).
      assert (Hr2 : (1 <= fst c2 <= increments w)%nat)
        by (apply Hrng, in_map, (nth_error_In _ _ H2)).
      lia.
    - congruence. }
  split; [|exact H16].
  rewrite <- (map_map snd (firstn 16)) in H16.
  exact (NoDup_map_inv _ _ H16).
Qed.

Lemma scheduled_calls_never_repeat_witness :
  exists w,
    run test_schedule (start test_gen) = Some w /\
    NoDup (map snd (returned w)) /\
    NoDup (map (fun c => firstn 16 (snd c)) (returned w)).
Proof.
  eexists. split; [vm_compute; reflexivity|].
  apply (scheduled_calls_never_repeat test_gen test_schedule);
    [apply test_gen_wf | vm_compute; reflexivity | vm_compute; discriminate].
Defined.

(** ** The Generator with pooled counters *)

Module PooledFacts.

Import Pooled.

Lemma unsigned_byte_xor (a b : byte) :
  byte.unsigned (byte_xor a b) = Z.lxor (byte.unsigned a) (byte.unsigned b).
Proof.
  unfold byte_xor. rewrite byte.unsigned_of_Z. unfold byte.wrap.
  pose proof (byte.unsigned_range a) as Ha.
  pose proof (byte.unsigned_range b) as Hb.
  apply Z.bits_inj'. intros i Hi.
  destruct (Z.ltb_spec i 8) as [Hlt | Hge].
  - now rewrite Z.mod_pow2_bits_low.
  - rewrite Z.mod_pow2_bits_high, Z.lxor_spec by lia.
    rewrite <- (Z.mod_small (byte.unsigned a) (2 ^ 8)) by exact Ha.
    rewrite <- (Z.mod_small (byte.unsigned b) (2 ^ 8)) by exact Hb.
    now rewrite !Z.mod_pow2_bits_high by lia.
Qed.

Lemma byte_xor_involutive (a b : byte) : byte_xor (byte_xor a b) b = a.
Proof.
  apply byte.unsigned_inj. rewrite !unsigned_byte_xor.
  now rewrite Z.lxor_assoc, Z.lxor_nilpotent, Z.lxor_0_r.
Qed.

Lemma byte_xor_0_r (a : byte) : byte_xor a Byte.x00 = a.
Proof.
  apply byte.unsigned_inj. rewrite unsigned_byte_xor.
  change (byte.unsigned Byte.x00) with 0. apply Z.lxor_0_r.
Qed.

Lemma byte_xor_cancel (a x y : byte) : byte_xor a x = byte_xor a y -> x = y.
Proof.
  intros E. apply (f_equal byte.unsigned) in E.
  rewrite !unsigned_byte_xor in E.
  apply (f_equal (Z.lxor (byte.unsigned a))) in E.
  rewrite <- !Z.lxor_assoc, Z.lxor_nilpotent, !Z.lxor_0_l in E.
  now apply byte.unsigned_inj.
Qed.

Lemma length_xor_bytes (s : list byte) :
  forall mask, length (xor_bytes s mask) = length s.
Proof.
  induction s as [|x s IH]; intros [|m mask]; cbn [xor_bytes length];
    try reflexivity.
  now rewrite IH.
Qed.

Lemma xor_bytes_involutive (s : list byte) :
  forall mask, xor_bytes (xor_bytes s mask) mask = s.
Proof.
  induction s as [|x s IH]; intros [|m mask]; cbn [xor_bytes];
    try reflexivity.
  now rewrite byte_xor_involutive, IH.
Qed.

Lemma xor_bytes_cancel (s : list byte) :
  forall m1 m2,
    length m1 = length m2 -> (length m1 <= length s)%nat ->
    xor_bytes s m1 = xor_bytes s m2 -> m1 = m2.
Proof.
  induction s as [|x s IH]; intros [|a m1] [|b m2] Hlen Hle E;
    cbn [length] in *; try reflexivity; try lia.
  cbn [xor_bytes] in E. injection E as Eh Et.
  f_equal; [exact (byte_xor_cancel x a b Eh) | apply IH; [lia | lia | exact Et]].
Qed.

Lemma xor_bytes_nil (s : list byte) : xor_bytes s [] = s.
Proof. destruct s; reflexivity. Qed.

Lemma xor_bytes_zeros (s : list byte) :
  forall mask k, xor_bytes s (mask ++ repeat Byte.x00 k) = xor_bytes s mask.
Proof.
  induction s as [|x s IH]; intros [|m mask] k; cbn [app xor_bytes];
    try reflexivity.
  - destruct k; reflexivity.
  - destruct k as [|k]; cbn [repeat xor_bytes]; [reflexivity|].
    rewrite byte_xor_0_r. f_equal.
    rewrite <- (xor_bytes_nil s) at 2. exact (IH [] k).
  - f_equal. apply IH.
Qed.

Lemma skipn_xor_bytes (s : list byte) :
  forall mask, skipn (length mask) (xor_bytes s mask) = skipn (length mask) s.
Proof.
  induction s as [|x s IH]; intros [|m mask]; cbn [xor_bytes length skipn];
    try reflexivity.
  apply IH.
Qed.

Lemma xor_range_eq (buf : list byte) :
  forall into,
    (length buf <= length into)%nat ->
    xor_range buf into = Return (xor_bytes into buf).
Proof.
  induction buf as [|b buf IH]; intros [|x into] Hlen;
    cbn [length] in Hlen; cbn [xor_range xor_bytes]; try reflexivity; try lia.
  rewrite IH by lia. reflexivity.
Qed.

Lemma xor_range_short (buf : list byte) :
  forall into,
    (length into < length buf)%nat ->
    xor_range buf into = Panic index_out_of_range.
Proof.
  induction buf as [|b buf IH]; intros [|x into] Hlen;
    cbn [length] in Hlen; cbn [xor_range]; try reflexivity; try lia.
  rewrite IH by lia. reflexivity.
Qed.

Lemma xorBytesUint64_eq (into : list byte) (v : Z) :
  (8 <= length into)%nat ->
  xorBytesUint64 into v = Return (xor_bytes into (le_bytes 8 v)).
Proof.
  intros Hlen. unfold xorBytesUint64.
  rewrite PutUint64_le_bytes by (rewrite repeat_length; lia).
  cbn [bind repeat skipn]. rewrite app_nil_r.
  apply xor_range_eq. rewrite length_le_bytes. exact Hlen.
Qed.

(** [xorBytesUint64] panics on fewer than 8 bytes; otherwise it changes the
    first 8 bytes only, and a second call with the same number restores
    them. *)
Theorem xorBytesUint64_twice (into : list byte) (v : Z) :
  ((length into < 8)%nat ->
   xorBytesUint64 into v = Panic index_out_of_range) /\
  ((8 <= length into)%nat ->
   exists out,
     xorBytesUint64 into v = Return out /\
     length out = length into /\
     skipn 8 out = skipn 8 into /\
     xorBytesUint64 out v = Return into).
Proof.
  split; intros Hlen.
  - unfold xorBytesUint64.
    rewrite PutUint64_le_bytes by (rewrite repeat_length; lia).
    cbn [bind repeat skipn]. rewrite app_nil_r.
    apply xor_range_short. rewrite length_le_bytes. exact Hlen.
  - exists (xor_bytes into (le_bytes 8 v)).
    split; [apply xorBytesUint64_eq, Hlen|].
    split; [apply length_xor_bytes|].
    split; [exact (skipn_xor_bytes into (le_bytes 8 v))|].
    rewrite xorBytesUint64_eq by (rewrite length_xor_bytes; exact Hlen).
    now rewrite xor_bytes_involutive.
Qed.

Lemma xorBytesUint64_twice_witness :
  ((length test_buf < 8)%nat ->
   xorBytesUint64 test_buf 32768 = Panic index_out_of_range) /\
  ((8 <= length test_buf)%nat ->
   exists out,
     xorBytesUint64 test_buf 32768 = Return out /\
     length out = length test_buf /\
     skipn 8 out = skipn 8 test_buf /\
     xorBytesUint64 out 32768 = Return test_buf).
Proof. apply (xorBytesUint64_twice test_buf 32768). Defined.

Lemma remove_nth_split {A : Type} (l : list A) (i : nat) (a : A) :
  nth_error l i = Some a ->
  exists l1 l2,
    l = l1 ++ a :: l2 /\ firstn i l ++ skipn (S i) l = l1 ++ l2.
Proof.
  intros Hi. apply nth_error_split in Hi as (l1 & l2 & Hl & Hlen).
  exists l1, l2. split; [exact Hl|].
  rewrite Hl, <- Hlen.
  rewrite firstn_app, firstn_all, Nat.sub_diag, app_nil_r.
  replace (S (length l1)) with (length l1 + 1)%nat by lia.
  rewrite skipn_app, skipn_all2 by lia.
  replace (length l1 + 1 - length l1)%nat with 1%nat by lia.
  reflexivity.
Qed.

Lemma uint16_land (x : Z) : uint16 (Z.land x 65535) = x mod 2 ^ 16.
Proof.
  unfold uint16. change 65535 with (Z.ones 16).
  rewrite Z.land_ones by lia. apply Z.mod_mod. lia.
Qed.

Lemma mod_uint64_uint16 (x : Z) : (x mod uint64_modulus) mod 2 ^ 16 = x mod 2 ^ 16.
Proof.
  apply Z.mod_mod_divide. exists (2 ^ 48). reflexivity.
Qed.

Lemma base_back (b : Z) :
  0 <= b < uint64_modulus ->
  ((b + step) mod uint64_modulus - step) mod uint64_modulus = b.
Proof.
  intros Hb. rewrite Zminus_mod_idemp_l.
  replace (b + step - step) with b by lia. now apply Z.mod_small.
Qed.

(** What [newCounter] returns and leaves, in one equation. *)
Lemma newCounter_eq (g : Generator) :
  length (seed g) = 24%nat ->
  0 <= base0 g < uint64_modulus ->
  newCounter g =
  Return
    ({| n := base0 g mod 2 ^ 16;
        limit := (base0 g + step) mod 2 ^ 16;
        c_seed :=
          xor_bytes (seed g)
            (mask (base0 g)
               (if (base0 g + step) mod uint64_modulus <? step
                then (base1 g + 1) mod uint64_modulus
                else base1 g)) |},
     {| pool_New := pool_New g;
        pool := pool g;
        base0 := (base0 g + step) mod uint64_modulus;
        base1 := if (base0 g + step) mod uint64_modulus <? step
                 then (base1 g + 1) mod uint64_modulus
                 else base1 g;
        seed := seed g |}).
Proof.
  intros Hlen Hb. destruct g as [pn pl b0 b1 S].
  cbn [seed base0 base1 pool pool_New] in *.
  unfold newCounter. cbn [seed base0 base1 pool pool_New].
  rewrite (base_back b0 Hb), !uint16_land, mod_uint64_uint16.
  set (H := if (b0 + step) mod uint64_modulus <? step
            then (b1 + 1) mod uint64_modulus else b1).
  assert (EH : base1 (if (b0 + step) mod uint64_modulus <? step
                      then {| pool_New := pn; pool := pl;
                              base0 := (b0 + step) mod uint64_modulus;
                              base1 := (b1 + 1) mod uint64_modulus;
                              seed := S |}
                      else {| pool_New := pn; pool := pl;
                              base0 := (b0 + step) mod uint64_modulus;
                              base1 := b1; seed := S |}) = H)
    by (unfold H; destruct (_ <? _); reflexivity).
  assert (Eg : (if (b0 + step) mod uint64_modulus <? step
                then {| pool_New := pn; pool := pl;
                        base0 := (b0 + step) mod uint64_modulus;
                        base1 := (b1 + 1) mod uint64_modulus;
                        seed := S |}
                else {| pool_New := pn; pool := pl;
                        base0 := (b0 + step) mod uint64_modulus;
                        base1 := b1; seed := S |})
               = {| pool_New := pn; pool := pl;
                    base0 := (b0 + step) mod uint64_modulus;
                    base1 := H; seed := S |})
    by (unfold H; destruct (_ <? _); reflexivity).
  rewrite Eg. cbn [seed base0 base1 pool pool_New n limit c_seed].
  as_24_bytes S Hlen.
  rewrite xorBytesUint64_eq by (cbn [length]; lia).
  cbn [le_bytes xor_bytes bind skipn firstn app].
  rewrite xorBytesUint64_eq by (cbn [length]; lia).
  cbn [le_bytes xor_bytes bind skipn firstn app].
  unfold mask. cbn [le_bytes xor_bytes skipn app].
  rewrite !byte_xor_0_r. reflexivity.
Qed.

Lemma wrapped_iff (b : Z) :
  0 <= b < uint64_modulus ->
  ((b + step) mod uint64_modulus <? step) = (uint64_modulus <=? b + step).
Proof.
  intros Hb. unfold step, uint64_modulus in *.
  destruct (Z.leb_spec (2 ^ 64) (b + 32768)) as [Hw | Hn].
  - apply Z.ltb_lt.
    replace (b + 32768) with (b + 32768 - 2 ^ 64 + 1 * 2 ^ 64) by lia.
    rewrite Z.mod_add by lia. rewrite Z.mod_small by lia. lia.
  - apply Z.ltb_ge. rewrite Z.mod_small by lia. lia.
Qed.

Lemma fresh_not_exhausted (b : Z) :
  (uint16 (b mod 2 ^ 16 + 1) =? (b + step) mod 2 ^ 16) = false.
Proof.
  apply Z.eqb_neq. unfold uint16, step.
  rewrite Zplus_mod_idemp_l. intros E.
  assert (H : (b + 32768 - (b + 1)) mod 2 ^ 16 = 0).
  { rewrite Zminus_mod, E, Z.sub_diag. reflexivity. }
  replace (b + 32768 - (b + 1)) with 32767 in H by lia.
  discriminate H.
Qed.

(** [newCounter] moves [base0] on by [step] modulo 2^64 and adds 1 to
    [base1] exactly when [base0] wraps; it leaves the seed and the pool
    alone.  The counter it returns starts at the old [base0] and ends a
    [step] later, as 16-bit numbers, so it is not used up; its seed has the
    24 bytes of the Generator's, the same bytes 0, 1 and 16..23. *)
Theorem newCounter_advances_bases (g : Generator) :
  length (seed g) = 24%nat ->
  0 <= base0 g < 2 ^ 64 ->
  exists c g',
    newCounter g = Return (c, g') /\
    base0 g' = (base0 g + 32768) mod 2 ^ 64 /\
    base1 g' = (if 2 ^ 64 <=? base0 g + 32768
                then (base1 g + 1) mod 2 ^ 64 else base1 g) /\
    seed g' = seed g /\ pool g' = pool g /\ pool_New g' = pool_New g /\
    n c = base0 g mod 2 ^ 16 /\
    limit c = (n c + 32768) mod 2 ^ 16 /\
    uint16 (n c + 1) <> limit c /\
    length (c_seed c) = 24%nat /\
    firstn 2 (c_seed c) = firstn 2 (seed g) /\
    skipn 16 (c_seed c) = skipn 16 (seed g).
Proof.
  intros Hlen Hb. eexists _, _. split; [apply newCounter_eq; assumption|].
  cbn [base0 base1 seed pool pool_New n limit c_seed].
  split; [reflexivity|].
  split; [now rewrite wrapped_iff|].
  do 3 (split; [reflexivity|]).
  split; [reflexivity|].
  split; [unfold step; now rewrite Zplus_mod_idemp_l|].
  split.
  { intros E. pose proof (fresh_not_exhausted (base0 g)) as Hf.
    apply Z.eqb_neq in Hf. exact (Hf E). }
  split; [rewrite length_xor_bytes; exact Hlen|].
  remember (if (base0 g + step) mod uint64_modulus <? step
            then (base1 g + 1) mod uint64_modulus else base1 g) as H.
  destruct g as [pn pl b0 b1 S]. cbn [seed base0] in *.
  as_24_bytes S Hlen. unfold mask.
  cbn [le_bytes xor_bytes skipn firstn app].
  rewrite !byte_xor_0_r. split; reflexivity.
Qed.

Lemma newCounter_advances_bases_witness :
  exists c g',
    newCounter wrap_gen = Return (c, g') /\
    base0 g' = (base0 wrap_gen + 32768) mod 2 ^ 64 /\
    base1 g' = (if 2 ^ 64 <=? base0 wrap_gen + 32768
                then (base1 wrap_gen + 1) mod 2 ^ 64 else base1 wrap_gen) /\
    seed g' = seed wrap_gen /\ pool g' = pool wrap_gen /\
    pool_New g' = pool_New wrap_gen /\
    n c = base0 wrap_gen mod 2 ^ 16 /\
    limit c = (n c + 32768) mod 2 ^ 16 /\
    uint16 (n c + 1) <> limit c /\
    length (c_seed c) = 24%nat /\
    firstn 2 (c_seed c) = firstn 2 (seed wrap_gen) /\
    skipn 16 (c_seed c) = skipn 16 (seed wrap_gen).
Proof.
  apply (newCounter_advances_bases wrap_gen);
    [reflexivity | split; vm_compute; congruence].
Defined.








(** A Generator that [NewGenerator] has not made has no [New] in its pool:
    on one with an empty pool, [Next] panics at the type assertion. *)
Theorem Next_without_NewGenerator
        (g : Generator) (ch : choice) (choices : list choice) :
  pool_New g = false ->
  pool g = [] ->
  Next (ch :: choices) g = Panic nil_conversion.
Proof.
  intros HN Hp. cbn [Next].
  assert (E : pool_Get ch g = Panic nil_conversion).
  { destruct ch as [i|]; cbn [pool_Get]; unfold pool_miss;
      rewrite ?Hp, ?HN; [destruct i|]; reflexivity. }
  now rewrite E.
Qed.

Lemma Next_without_NewGenerator_witness :
  Next [Nothing] zero_gen = Panic nil_conversion.
Proof. apply (Next_without_NewGenerator zero_gen Nothing []); reflexivity. Defined.

Lemma Next_cons (ch : choice) (choices : list choice) (g : Generator) :
  Next (ch :: choices) g =
  bind (pool_Get ch g) (fun p => turn (fst p) (snd p) choices).
Proof.
  cbn [Next]. destruct (pool_Get ch g) as [[c g1]|msg]; reflexivity.
Qed.

Lemma counter_at_exhausted (S : list byte) (B H j : Z) :
  0 <= j < step ->
  (uint16 (n (counter_at S B H j) + 1) =? limit (counter_at S B H j))
  = (j + 1 =? step).
Proof.
  intros Hj. cbn [n limit counter_at]. unfold uint16, step in *.
  rewrite Zplus_mod_idemp_l.
  destruct (Z.eqb_spec (j + 1) 32768) as [E | Hne].
  - replace (B + j + 1) with (B + 32768) by lia. apply Z.eqb_refl.
  - apply Z.eqb_neq. intros E.
    assert (H0 : (B + 32768 - (B + j + 1)) mod 2 ^ 16 = 0).
    { rewrite Zminus_mod, E, Z.sub_diag. reflexivity. }
    replace (B + 32768 - (B + j + 1)) with (32767 - j) in H0 by lia.
    rewrite Z.mod_small in H0 by lia. lia.
Qed.

Lemma counter_at_next (S : list byte) (B H j : Z) :
  {| n := uint16 (n (counter_at S B H j) + 1);
     limit := limit (counter_at S B H j);
     c_seed := c_seed (counter_at S B H j) |}
  = counter_at S B H (j + 1).
Proof.
  unfold counter_at. cbn [n limit c_seed]. f_equal.
  unfold uint16. rewrite Zplus_mod_idemp_l. f_equal. lia.
Qed.

Lemma byte_of_uint16_low (x : Z) :
  byte.of_Z (x mod 2 ^ 16) = byte.of_Z (x mod 2 ^ 8).
Proof.
  apply byte.unsigned_inj. rewrite !byte.unsigned_of_Z. unfold byte.wrap.
  rewrite Z.mod_mod by lia.
  apply Z.mod_mod_divide. exists (2 ^ 8). reflexivity.
Qed.

Lemma byte_of_uint16_high (x : Z) :
  byte.of_Z (Z.shiftr (x mod 2 ^ 16) 8) = byte.of_Z ((x / 2 ^ 8) mod 2 ^ 8).
Proof.
  rewrite Z.shiftr_div_pow2 by lia.
  rewrite <- (byte_of_Z_mod (x mod 2 ^ 16 / 2 ^ 8)). f_equal.
  change (2 ^ 16) with (2 ^ 8 * 2 ^ 8).
  rewrite Z.rem_mul_r by lia.
  rewrite (Z.mul_comm (2 ^ 8)), Z.div_add by lia.
  rewrite (Z.div_small (x mod 2 ^ 8)) by (apply Z.mod_pos_bound; lia).
  cbn [Z.add]. apply Z.mod_mod. lia.
Qed.

Lemma same_high_bytes (m j : Z) :
  0 <= m -> 0 <= j < step ->
  (step * m + j) / 2 ^ 8 / 2 ^ 8 = step * m / 2 ^ 8 / 2 ^ 8.
Proof.
  intros Hm Hj. unfold step in *. rewrite !Z.div_div by lia.
  change (2 ^ 8 * 2 ^ 8) with 65536.
  pose proof (Z.div_mod (32768 * m + j) 65536 ltac:(lia)) as H1.
  pose proof (Z.mod_pos_bound (32768 * m + j) 65536 ltac:(lia)) as H2.
  pose proof (Z.div_mod (32768 * m) 65536 ltac:(lia)) as H3.
  pose proof (Z.mod_pos_bound (32768 * m) 65536 ltac:(lia)) as H4.
  lia.
Qed.

(** The identifier that a turn of the loop makes from the counter of a
    block. *)
Lemma turn_counter_at (S : list byte) (m H j : Z) (g : Generator)
      (choices : list choice) :
  length S = 24%nat -> 0 <= m -> 0 <= j -> j + 1 < step ->
  turn (counter_at S (step * m) H j) g choices =
  Return (Some (ident S (step * m + j + 1) H,
                pool_Put (counter_at S (step * m) H (j + 1)) g)).
Proof.
  intros HS Hm Hj Hj1. unfold turn. cbv zeta.
  rewrite counter_at_exhausted by lia.
  destruct (Z.eqb_spec (j + 1) step) as [E | _]; [lia|].
  rewrite counter_at_next.
  cbn [n limit c_seed counter_at]. unfold uint16.
  rewrite Zplus_mod_idemp_l.
  destruct S as [|s0 [|s1 rest]]; [discriminate HS | discriminate HS |].
  unfold mask, ident.
  change (le_bytes 8 (step * m))
    with (byte.of_Z (step * m mod 2 ^ 8)
          :: byte.of_Z ((step * m / 2 ^ 8) mod 2 ^ 8)
          :: le_bytes 6 (step * m / 2 ^ 8 / 2 ^ 8)).
  change (le_bytes 8 (step * m + j + 1))
    with (byte.of_Z ((step * m + j + 1) mod 2 ^ 8)
          :: byte.of_Z (((step * m + j + 1) / 2 ^ 8) mod 2 ^ 8)
          :: le_bytes 6 ((step * m + j + 1) / 2 ^ 8 / 2 ^ 8)).
  cbn [skipn app xor_bytes].
  rewrite !byte_xor_0_r, byte_of_uint16_low, byte_of_uint16_high.
  replace (step * m + j + 1) with (step * m + (j + 1)) by lia.
  rewrite (same_high_bytes m (j + 1)) by lia.
  reflexivity.
Qed.

Lemma turn_exhausted (S : list byte) (B H j : Z) (g : Generator)
      (choices : list choice) :
  0 <= j < step -> j + 1 = step ->
  turn (counter_at S B H j) g choices = Next choices g.
Proof.
  intros Hj E. unfold turn. cbv zeta.
  rewrite counter_at_exhausted by exact Hj.
  now rewrite (proj2 (Z.eqb_eq _ _) E).
Qed.

Lemma zeros_8 : le_bytes 8 0 = repeat Byte.x00 8.
Proof. reflexivity. Qed.

Lemma ident_eq (S : list byte) (V : Z) :
  ident S V 0 = xor_bytes S (le_bytes 8 V).
Proof. unfold ident. rewrite zeros_8. apply xor_bytes_zeros. Qed.

Lemma ident_length (S : list byte) (V : Z) :
  length (ident S V 0) = length S.
Proof. rewrite ident_eq. apply length_xor_bytes. Qed.

Lemma ident_tail (S : list byte) (V : Z) :
  skipn 8 (ident S V 0) = skipn 8 S.
Proof. rewrite ident_eq. exact (skipn_xor_bytes S (le_bytes 8 V)). Qed.

Lemma ident_inj (S : list byte) (V V' : Z) :
  length S = 24%nat ->
  0 <= V < uint64_modulus -> 0 <= V' < uint64_modulus ->
  ident S V 0 = ident S V' 0 -> V = V'.
Proof.
  intros HS HV HV' E. rewrite !ident_eq in E.
  apply xor_bytes_cancel in E;
    [now apply le_bytes_8_inj | now rewrite !length_le_bytes
    | rewrite length_le_bytes; lia].
Qed.

Lemma inv_use (S : list byte) (g : Generator) (blocks : list block)
      (issued : list Z) (k k' : nat) (B j : Z) :
  inv S g blocks issued k ->
  (k <= k')%nat ->
  ~ In B (map fst blocks) ->
  (exists m, 0 <= m /\ B = step * m) ->
  B + step <= base0 g ->
  0 <= j -> j + 1 < step ->
  Forall (fun V => ~ (B + j < V < B + step)) issued ->
  inv S (pool_Put (counter_at S B 0 (j + 1)) g) ((B, j + 1) :: blocks)
      (issued ++ [B + j + 1]) k'.
Proof.
  intros (HS & HN & Hseed & Hb1 & Hpool & (K & HK & Hb0) & Hnd & Hblocks
          & Hndi & Hiss) Hk HB (m & Hm & EB) Hle Hj Hj1 Hfree.
  unfold inv. cbn [pool_Put pool_New seed base0 base1 pool map fst snd].
  split; [exact HS|]. split; [exact HN|]. split; [exact Hseed|].
  split; [exact Hb1|]. split; [now rewrite Hpool|].
  split; [exists K; split; [lia | exact Hb0]|].
  split; [constructor; assumption|].
  split.
  { constructor.
    - cbn [fst snd]. split; [exists m; split; assumption|].
      split; [exact Hle|]. split; [lia|].
      apply Forall_app. split.
      + eapply Forall_impl; [|exact Hfree]. cbn beta. intros V HV. lia.
      + constructor; [lia | constructor].
    - rewrite Forall_forall in Hblocks |- *. intros b Hb.
      destruct (Hblocks b Hb) as ((m' & Hm' & Eb) & Hle' & Hjb & Hfree').
      split; [exists m'; split; assumption|].
      split; [exact Hle'|]. split; [exact Hjb|].
      apply Forall_app. split; [exact Hfree'|].
      constructor; [|constructor].
      assert (Hne : fst b <> B)
        by (intros E; apply HB; rewrite <- E; now apply in_map).
      unfold step in *. lia. }
  split.
  { eapply Permutation_NoDup; [apply Permutation_cons_append|].
    constructor; [|exact Hndi].
    intros Hin. rewrite Forall_forall in Hfree.
    apply (Hfree _ Hin). lia. }
  apply Forall_app. split; [exact Hiss|].
  constructor; [unfold step in *; lia | constructor].
Qed.

Lemma inv_take (S : list byte) (g : Generator) (blocks : list block)
      (issued : list Z) (k i : nat) (c : counter) :
  inv S g blocks issued k ->
  nth_error (pool g) i = Some c ->
  exists B j blocks1,
    c = counter_at S B 0 j /\
    inv S {| pool_New := pool_New g;
             pool := firstn i (pool g) ++ skipn (Datatypes.S i) (pool g);
             base0 := base0 g; base1 := base1 g; seed := seed g |}
        blocks1 issued k /\
    ~ In B (map fst blocks1) /\
    (exists m, 0 <= m /\ B = step * m) /\
    B + step <= base0 g /\
    0 <= j < step /\
    Forall (fun V => ~ (B + j < V < B + step)) issued.
Proof.
  intros (HS & HN & Hseed & Hb1 & Hpool & HK & Hnd & Hblocks & Hndi & Hiss) Hi.
  rewrite Hpool, nth_error_map in Hi.
  match type of Hi with
  | option_map _ ?t = _ => destruct t as [[B j]|] eqn:Hb
  end; cbn [option_map fst snd] in Hi; [|discriminate Hi].
  destruct (remove_nth_split _ _ _ Hb) as (l1 & l2 & Hl & Hrm).
  exists B, j, (l1 ++ l2). split; [congruence|].
  rewrite Hl in Hnd, Hblocks.
  rewrite map_app in Hnd. cbn [map fst] in Hnd.
  apply NoDup_remove in Hnd as [Hnd HB]. rewrite <- map_app in Hnd, HB.
  apply Forall_app in Hblocks as [Hbl1 Hbl2].
  apply Forall_cons_iff in Hbl2 as [(Hm & Hle & Hj & Hfree) Hbl2].
  cbn [fst snd] in *.
  split.
  { unfold inv. cbn [pool_New seed base0 base1 pool].
    repeat (split; [assumption|]).
    split.
    { rewrite Hpool, firstn_map, skipn_map, <- map_app, Hrm. reflexivity. }
    split; [exact HK|]. split; [exact Hnd|].
    split; [apply Forall_app; split; assumption|].
    split; assumption. }
  repeat (split; [assumption|]). exact Hfree.
Qed.

Lemma inv_miss (S : list byte) (g : Generator) (blocks : list block)
      (issued : list Z) (k : nat) :
  inv S g blocks issued k ->
  Z.of_nat k + 1 < 2 ^ 49 ->
  exists g1,
    pool_miss g = Return (counter_at S (base0 g) 0 0, g1) /\
    inv S g1 blocks issued (Datatypes.S k) /\
    ~ In (base0 g) (map fst blocks) /\
    (exists m, 0 <= m /\ base0 g = step * m) /\
    base0 g + step <= base0 g1 /\
    Forall (fun V => ~ (base0 g + 0 < V < base0 g + step)) issued.
Proof.
  intros (HS & HN & Hseed & Hb1 & Hpool & (K & HK & Hb0) & Hnd & Hblocks
          & Hndi & Hiss) Hk.
  assert (Hrange : 0 <= base0 g /\ base0 g + step < uint64_modulus)
    by (rewrite Hb0; unfold step, uint64_modulus; lia).
  assert (Hstep : 0 < step) by reflexivity.
  unfold pool_miss. rewrite HN.
  rewrite newCounter_eq
    by first [rewrite Hseed; exact HS | unfold step in Hrange; lia].
  rewrite (Z.mod_small (base0 g + step) uint64_modulus) by lia.
  rewrite (proj2 (Z.ltb_ge (base0 g + step) step)) by lia.
  rewrite Hb1, Hseed.
  eexists. split.
  { unfold counter_at. rewrite Z.add_0_r. reflexivity. }
  split.
  { unfold inv. cbn [pool_New seed base0 base1 pool].
    repeat (split; [first [assumption | reflexivity]|]).
    split; [exists (K + 1); split; [lia | rewrite Hb0; lia]|].
    split; [exact Hnd|].
    split.
    { eapply Forall_impl; [|exact Hblocks]. cbn beta.
      intros b (Hm & Hle & Hj & Hfree).
      repeat (split; [first [assumption | unfold step in *; lia]|]).
      exact Hfree. }
    split; [exact Hndi|].
    eapply Forall_impl; [|exact Hiss]. cbn beta.
    intros V HV. unfold step. lia. }
  cbn [base0].
  split.
  { intros Hin. apply in_map_iff in Hin as (b & Eb & Hb).
    rewrite Forall_forall in Hblocks.
    destruct (Hblocks b Hb) as (_ & Hle & _). unfold step in *. lia. }
  split; [exists K; split; [lia | exact Hb0]|].
  split; [lia|].
  eapply Forall_impl; [|exact Hiss]. cbn beta. intros V HV. lia.
Qed.

Lemma Next_inv (S : list byte) (issued : list Z) (k : nat) :
  Z.of_nat k + 1 < 2 ^ 49 ->
  forall choices g blocks uuid g',
    inv S g blocks issued k ->
    Next choices g = Return (Some (uuid, g')) ->
    exists blocks' V,
      inv S g' blocks' (issued ++ [V]) (Datatypes.S k) /\
      uuid = ident S V 0.
Proof.
  intros Hk. induction choices as [|ch choices IH];
    intros g blocks uuid g' Hinv HNext; [discriminate HNext|].
  rewrite Next_cons in HNext.
  assert (HS : length S = 24%nat) by apply Hinv.
  assert (Hmiss : pool_Get ch g = pool_miss g \/
                  exists i c, ch = Stored i /\ nth_error (pool g) i = Some c).
  { destruct ch as [i|]; [|left; reflexivity]. cbn [pool_Get].
    destruct (nth_error (pool g) i) as [c|] eqn:Hi;
      [right; now exists i, c | left; reflexivity]. }
  destruct Hmiss as [Hmiss | (i & c & -> & Hi)].
  - rewrite Hmiss in HNext.
    destruct (inv_miss S g blocks issued k Hinv Hk)
      as (g1 & E & Hinv1 & HB & (m & Hm & EB) & Hle & Hfree).
    rewrite E in HNext. cbn [bind fst snd] in HNext.
    rewrite EB in HNext.
    rewrite turn_counter_at in HNext by (unfold step; lia).
    assert (Eu : uuid = ident S (step * m + 0 + 1) 0) by congruence.
    assert (Eg : g' = pool_Put (counter_at S (step * m) 0 (0 + 1)) g1)
      by congruence.
    rewrite Eu, Eg, <- EB.
    exists ((base0 g, 0 + 1) :: blocks), (base0 g + 0 + 1).
    split; [|reflexivity].
    apply (inv_use S g1 blocks issued (Datatypes.S k) (Datatypes.S k)
             (base0 g) 0); try assumption; try lia.
    + now exists m.
    + unfold step. lia.
  - cbn [pool_Get] in HNext. rewrite Hi in HNext. cbn [bind fst snd] in HNext.
    destruct (inv_take S g blocks issued k i c Hinv Hi)
      as (B & j & blocks1 & -> & Hinv1 & HB & (m & Hm & EB) & Hle & Hj & Hfree).
    destruct (Z.eq_dec (j + 1) step) as [Ex | Hne].
    + rewrite turn_exhausted in HNext by assumption.
      exact (IH _ blocks1 uuid g' Hinv1 HNext).
    + rewrite EB in HNext.
      rewrite turn_counter_at in HNext by lia.
      match type of HNext with
      | Return (Some (_, ?g2)) = _ =>
          assert (Eg : g' = g2) by congruence
      end.
      assert (Eu : uuid = ident S (step * m + j + 1) 0) by congruence.
      rewrite Eu, Eg, <- EB.
      exists ((B, j + 1) :: blocks1), (B + j + 1).
      split; [|reflexivity].
      apply (inv_use S _ blocks1 issued k (Datatypes.S k) B j);
        try assumption; try lia.
      now exists m.
Qed.

Lemma calls_inv (S : list byte) (choicess : list (list choice)) :
  forall g blocks issued k uuids g',
    inv S g blocks issued k ->
    Z.of_nat k + Z.of_nat (length choicess) < 2 ^ 49 ->
    calls choicess g = Return (Some (uuids, g')) ->
    exists blocks' issued',
      inv S g' blocks' (issued ++ issued') (k + length choicess) /\
      uuids = map (fun V => ident S V 0) issued'.
Proof.
  induction choicess as [|choices choicess IH];
    intros g blocks issued k uuids g' Hinv Hk Hcalls; cbn [calls length] in *.
  - assert (uuids = [] /\ g' = g) as [-> ->] by (split; congruence).
    exists blocks, []. rewrite app_nil_r, Nat.add_0_r. split; [exact Hinv | reflexivity].
  - destruct (Next choices g) as [[[u g1]|]|msg] eqn:EN; cbn [bind] in Hcalls;
      try discriminate Hcalls.
    destruct (calls choicess g1) as [[[us g2]|]|msg] eqn:EC;
      cbn [bind] in Hcalls; try discriminate Hcalls.
    assert (uuids = u :: us /\ g' = g2) as [-> ->] by (split; congruence).
    destruct (Next_inv S issued k ltac:(lia) choices g blocks u g1 Hinv EN)
      as (blocks1 & V & Hinv1 & ->).
    destruct (IH g1 blocks1 (issued ++ [V]) (Datatypes.S k) us g2 Hinv1
                ltac:(lia) EC) as (blocks2 & issued2 & Hinv2 & ->).
    exists blocks2, (V :: issued2).
    rewrite <- app_assoc in Hinv2. cbn [app] in Hinv2.
    replace (k + Datatypes.S (length choicess))%nat
      with (Datatypes.S k + length choicess)%nat by lia.
    split; [exact Hinv2 | reflexivity].
Qed.

Lemma NewGenerator_fresh (r : Reader) (g : Generator) :
  NewGenerator r = Return (Some g, None) -> inv (seed g) g [] [] 0.
Proof.
  unfold NewGenerator. cbv zeta. cbn [seed pool_New pool base0 base1].
  pose proof (rand_Read_length r (repeat Byte.x00 24)) as Hlen.
  destruct (rand_Read r (repeat Byte.x00 24)) as [[s k] err].
  cbn [fst] in Hlen. rewrite repeat_length in Hlen.
  destruct err as [e|]; intros E; [discriminate E|].
  assert (Eg : g = {| pool_New := true; pool := []; base0 := 0; base1 := 0;
                      seed := s |}) by congruence.
  rewrite Eg. unfold inv. cbn [seed pool_New pool base0 base1 map].
  repeat (split; [first [assumption | reflexivity]|]).
  split; [exists 0; split; [lia | reflexivity]|].
  repeat split; constructor.
Qed.

(** As long as [base0] has not wrapped, which takes 2^49 calls, no
    identifier is returned twice by calls made one after the other,
    whatever counters the pool hands out or drops; every identifier has 24
    bytes, of which bytes 8..23 are those of the seed. *)
Theorem calls_never_repeat
        (r : Reader) (g g' : Generator)
        (choicess : list (list choice)) (uuids : list (list byte)) :
  NewGenerator r = Return (Some g, None) ->
  calls choicess g = Return (Some (uuids, g')) ->
  Z.of_nat (length choicess) < 2 ^ 49 ->
  NoDup uuids /\
  Forall (fun uuid => length uuid = 24%nat /\
                      skipn 8 uuid = skipn 8 (seed g)) uuids /\
  seed g' = seed g.
Proof.
  intros HNew Hcalls Hfew.
  pose proof (NewGenerator_fresh r g HNew) as Hinv.
  destruct (calls_inv (seed g) choicess g [] [] 0 uuids g' Hinv
              ltac:(lia) Hcalls) as (blocks & issued & Hinv' & ->).
  cbn [app Nat.add] in Hinv'.
  destruct Hinv' as (HS & _ & Hseed & _ & _ & (K & HK & Hb0) & _ & _
                     & Hnd & Hiss).
  split; [|split; [|exact Hseed]].
  - apply NoDup_map_NoDup_ForallPairs; [|exact Hnd].
    intros V V' HV HV' E. rewrite Forall_forall in Hiss.
    pose proof (Hiss V HV) as H1. pose proof (Hiss V' HV') as H2.
    rewrite Hb0 in H1, H2.
    apply (ident_inj (seed g) V V' HS); [| |exact E];
      unfold uint64_modulus, step in *; lia.
  - apply Forall_forall. intros u Hu.
    apply in_map_iff in Hu as (V & <- & _).
    split; [now rewrite ident_length | apply ident_tail].
Qed.

Lemma calls_never_repeat_witness :
  exists uuids g',
    calls test_choices test_gen = Return (Some (uuids, g')) /\
    NoDup uuids /\
    Forall (fun uuid => length uuid = 24%nat /\
                        skipn 8 uuid = skipn 8 (seed test_gen)) uuids /\
    seed g' = seed test_gen.
Proof.
  eexists _, _. split; [vm_compute; reflexivity|].
  eapply (calls_never_repeat (bytes_NewReader test_buf) test_gen _
            test_choices);
    [vm_compute; reflexivity | vm_compute; reflexivity
    | cbn [length test_choices]; lia].
Defined.

(** [TestUUID] of this revision expects 00 02 03 ... 18 and then
    03 02 03 ... 18, which is what [Next] returns when the pool hands back
    the counter just put; when it finds nothing, the second identifier is
    00 82 03 ... 18. *)
Example TestUUID_pooled :
  calls [[Nothing]; [Stored 0]] test_gen
  = Return (Some ([Byte.x00 :: skipn 1 test_buf;
                   Byte.x03 :: skipn 1 test_buf],
                  {| pool_New := true;
                     pool := [counter_at test_buf 0 0 2];
                     base0 := 32768; base1 := 0; seed := test_buf |})) /\
  calls [[Nothing]; [Nothing]] test_gen
  = Return (Some ([Byte.x00 :: skipn 1 test_buf;
                   Byte.x00 :: Byte.x82 :: skipn 2 test_buf],
                  {| pool_New := true;
                     pool := [counter_at test_buf 32768 0 1;
                              counter_at test_buf 0 0 1];
                     base0 := 65536; base1 := 0; seed := test_buf |})).
Proof. split; vm_compute; reflexivity. Qed.

(** When [base0] wraps, [newCounter] adds 1 to [base1] and xors it into
    bytes 8..15 of the counter's seed: the identifier that [Next] then makes
    from a new counter differs from the seed, and from the identifiers
    returned before, in bytes 8..15 too, unless [base1] has wrapped to 0 as
    well; bytes 16..23 are the seed's. *)
Theorem Next_when_base0_wraps (g : Generator) (choices : list choice) :
  wf g ->
  base0 g = 2 ^ 64 - 32768 ->
  exists uuid g',
    Next (Nothing :: choices) g = Return (Some (uuid, g')) /\
    base0 g' = 0 /\
    base1 g' = (base1 g + 1) mod 2 ^ 64 /\
    skipn 16 uuid = skipn 16 (seed g) /\
    firstn 8 (skipn 8 uuid)
    = xor_bytes (firstn 8 (skipn 8 (seed g))) (le_bytes 8 (base1 g')) /\
    (base1 g' <> 0 ->
     firstn 8 (skipn 8 uuid) <> firstn 8 (skipn 8 (seed g))).
Proof.
  intros (HN & Hs & Hb0 & Hb1 & Hp) Hb.
  rewrite Next_cons. cbn [pool_Get]. unfold pool_miss. rewrite HN.
  rewrite (newCounter_eq g Hs Hb0). rewrite Hb.
  change ((2 ^ 64 - 32768 + step) mod uint64_modulus) with 0.
  change (0 <? step) with true. cbv iota.
  set (H' := (base1 g + 1) mod uint64_modulus).
  change {| n := (2 ^ 64 - 32768) mod 2 ^ 16;
            limit := (2 ^ 64 - 32768 + step) mod 2 ^ 16;
            c_seed := xor_bytes (seed g) (mask (2 ^ 64 - 32768) H') |}
    with (counter_at (seed g) (step * (2 ^ 49 - 1)) H' 0).
  cbn [bind fst snd].
  rewrite turn_counter_at by (try exact Hs; unfold step; lia).
  eexists _, _. split; [reflexivity|].
  cbn [pool_Put base0 base1 seed].
  split; [reflexivity|]. split; [reflexivity|].
  assert (Hbytes :
            skipn 16 (ident (seed g) (step * (2 ^ 49 - 1) + 0 + 1) H')
            = skipn 16 (seed g) /\
            firstn 8 (skipn 8 (ident (seed g) (step * (2 ^ 49 - 1) + 0 + 1) H'))
            = xor_bytes (firstn 8 (skipn 8 (seed g))) (le_bytes 8 H')).
  { clear Hp Hb Hb0 HN. destruct g as [pn pl b0 b1 S].
    cbn [seed] in *. clearbody H'. as_24_bytes S Hs. unfold ident.
    cbn [le_bytes app xor_bytes skipn firstn]. split; reflexivity. }
  destruct Hbytes as [H16 H8].
  split; [exact H16|]. split; [exact H8|].
  intros Hne E. rewrite H8 in E. apply Hne.
  assert (HX : length (firstn 8 (skipn 8 (seed g))) = 8%nat)
    by (rewrite length_firstn, length_skipn; lia).
  rewrite <- (xor_bytes_nil (firstn 8 (skipn 8 (seed g)))) in E at 2.
  rewrite <- (xor_bytes_zeros _ [] 8) in E. cbn [app] in E.
  apply xor_bytes_cancel in E;
    [|now rewrite length_le_bytes, repeat_length
     |rewrite length_le_bytes; lia].
  apply (le_bytes_8_inj H' 0);
    [apply Z.mod_pos_bound, uint64_modulus_pos
    | split; [lia | reflexivity] | exact E].
Qed.

Lemma pooled_wrap_gen_wf : wf wrap_gen.
Proof.
  repeat split; try reflexivity; try (vm_compute; congruence). constructor.
Qed.

Lemma Next_when_base0_wraps_witness :
  exists uuid g',
    Next [Nothing] wrap_gen = Return (Some (uuid, g')) /\
    base0 g' = 0 /\
    base1 g' = (base1 wrap_gen + 1) mod 2 ^ 64 /\
    skipn 16 uuid = skipn 16 (seed wrap_gen) /\
    firstn 8 (skipn 8 uuid)
    = xor_bytes (firstn 8 (skipn 8 (seed wrap_gen))) (le_bytes 8 (base1 g')) /\
    (base1 g' <> 0 ->
     firstn 8 (skipn 8 uuid) <> firstn 8 (skipn 8 (seed wrap_gen))).
Proof.
  apply (Next_when_base0_wraps wrap_gen []);
    [apply pooled_wrap_gen_wf | reflexivity].
Defined.

(** The first identifier of a Generator fresh from [NewGenerator] is its
    seed with the lowest bit of byte 0 flipped (the [1 ^ 1] of [TestUUID]),
    whatever the pool is asked for: a new Generator has no counter
    stored. *)
Theorem first_identifier_flips_a_bit
        (r : Reader) (g : Generator) (ch : choice) (choices : list choice) :
  NewGenerator r = Return (Some g, None) ->
  exists s0 rest g',
    seed g = s0 :: rest /\
    Next (ch :: choices) g
    = Return (Some (byte_xor s0 Byte.x01 :: rest, g')) /\
    base0 g' = 32768 /\
    pool g' = [counter_at (seed g) 0 0 1].
Proof.
  intros HNew. pose proof (NewGenerator_fresh r g HNew) as Hinv.
  destruct (inv_miss (seed g) g [] [] 0 Hinv ltac:(lia))
    as (g1 & E & Hinv1 & _).
  destruct Hinv as (HS & HN & _ & Hb1 & Hpool & (K & HK & Hb0) & _).
  assert (Hbase : base0 g = step * 0) by (rewrite Hb0; f_equal; lia).
  assert (Hg1 : base0 g1 = 32768 /\ pool g1 = []).
  { unfold pool_miss in E. rewrite HN in E.
    rewrite newCounter_eq in E
      by first [exact HS | rewrite Hbase; split; vm_compute; congruence].
    rewrite Hbase in E. cbn [map] in Hpool.
    assert (Eg : g1 = {| pool_New := pool_New g; pool := pool g;
                         base0 := (step * 0 + step) mod uint64_modulus;
                         base1 := if (step * 0 + step) mod uint64_modulus
                                     <? step
                                  then (base1 g + 1) mod uint64_modulus
                                  else base1 g;
                         seed := seed g |}) by congruence.
    rewrite Eg, Hpool. split; reflexivity. }
  destruct Hg1 as [Hb0' Hp1].
  assert (Hget : pool_Get ch g = pool_miss g).
  { destruct ch as [i|]; [|reflexivity]. cbn [pool_Get].
    cbn [map] in Hpool. rewrite Hpool. destruct i; reflexivity. }
  rewrite Next_cons, Hget, E. cbn [bind fst snd].
  rewrite Hbase, turn_counter_at by (try exact HS; unfold step; lia).
  revert HS. generalize (seed g) as S. intros S HS. as_24_bytes S HS.
  eexists _, _, _. split; [reflexivity|]. split.
  - unfold ident.
    change (le_bytes 8 (step * 0 + 0 + 1) ++ le_bytes 8 0)
      with (Byte.x01 :: repeat Byte.x00 15).
    cbn [repeat xor_bytes]. rewrite !byte_xor_0_r. reflexivity.
  - cbn [pool_Put base0 pool]. rewrite Hb0', Hp1. split; reflexivity.
Qed.

Lemma first_identifier_flips_a_bit_witness :
  exists s0 rest g',
    seed test_gen = s0 :: rest /\
    Next [Stored 2] test_gen
    = Return (Some (byte_xor s0 Byte.x01 :: rest, g')) /\
    base0 g' = 32768 /\
    pool g' = [counter_at (seed test_gen) 0 0 1].
Proof.
  apply (first_identifier_flips_a_bit
           (bytes_NewReader test_buf) test_gen (Stored 2) []).
  vm_compute. reflexivity.
Defined.

End PooledFacts.

(** ** The textual helpers *)

Local Open Scope string_scope.

Example Hex128_test_buf :
  Hex128 test_buf = "01020304-0506-4a08-8907-0b0c0d0e0f10".
Proof. vm_compute. reflexivity. Qed.

Lemma isLowerHex_spec (c : ascii) : isLowerHex c = true <-> lower_hex c.
Proof.
  unfold lower_hex.
  destruct c as [[] [] [] [] [] [] [] []];
    (split; [intros H; first [discriminate H | vm_compute; tauto]
            | intros H; first [reflexivity
                              | vm_compute in H; exfalso;
                                repeat (destruct H as [H | H]; [discriminate H|]);
                                exact H]]).
Qed.

Lemma existsb_separators (i : nat) :
  existsb (Nat.eqb i) separators = true <-> is_separator i.
Proof.
  unfold separators, is_separator. cbn [existsb].
  rewrite !orb_true_iff, !Nat.eqb_eq. intuition discriminate.
Qed.

Lemma class_at_spec (i : nat) (c : ascii) :
  class_at i c = true <->
  (is_separator i -> c = "-"%char) /\ (~ is_separator i -> lower_hex c).
Proof.
  unfold class_at. pose proof (existsb_separators i) as Hsep.
  destruct (existsb (Nat.eqb i) separators).
  - rewrite Ascii.eqb_eq. split.
    + intros ->. split; [reflexivity | intros Hn; exfalso; apply Hn, Hsep; reflexivity].
    + intros [H _]. apply H, Hsep. reflexivity.
  - rewrite isLowerHex_spec. split.
    + intros H. split; [intros Hs; apply Hsep in Hs; discriminate Hs | intros _; exact H].
    + intros [_ H]. apply H. intros Hs. apply Hsep in Hs. discriminate Hs.
Qed.

Lemma check_from_spec (s : string) :
  forall i,
    check_from i s = true <->
    (forall j c, get j s = Some c -> class_at (i + j) c = true).
Proof.
  induction s as [|a s IH]; intros i; cbn [check_from].
  - split; [intros _ j c H; destruct j; discriminate H | reflexivity].
  - rewrite andb_true_iff, IH. split.
    + intros [Ha Hs] [|j] c H; cbn [get] in H.
      * injection H as <-. now rewrite Nat.add_0_r.
      * rewrite Nat.add_succ_r. apply (Hs j c H).
    + intros H. split.
      * rewrite <- (Nat.add_0_r i). apply (H 0%nat). reflexivity.
      * intros j c Hj. replace (S i + j)%nat with (i + S j)%nat by lia.
        apply (H (S j)). exact Hj.
Qed.

(** The grouping test is a test of each position's character class. *)
Lemma ValidHex128_check (s : string) :
  ValidHex128 s = ((String.length s =? 36)%nat && check_from 0 s).
Proof.
  unfold ValidHex128.
  destruct (String.length s =? 36)%nat eqn:Hlen; [|reflexivity].
  cbn [andb].
  do 36 (destruct s as [|? s]; [cbn in Hlen; discriminate Hlen|]).
  destruct s; [|cbn in Hlen; discriminate Hlen].
  clear Hlen. repeat step_class.
Qed.

(** C8: [ValidHex128 s] is true iff [s] has exactly 36 characters, a
    hyphen at each of the positions 8, 13, 18 and 23, and a lowercase hex
    digit ([0]-[9], [a]-[f]) at every other position. *)
Theorem ValidHex128_iff (s : string) :
  ValidHex128 s = true <->
  String.length s = 36%nat /\
  forall i c,
    get i s = Some c ->
    (is_separator i -> c = "-"%char) /\ (~ is_separator i -> lower_hex c).
Proof.
  rewrite ValidHex128_check, andb_true_iff, Nat.eqb_eq, check_from_spec.
  split; intros [Hlen H]; (split; [exact Hlen|]); intros i c Hi.
  - apply class_at_spec, (H i c Hi).
  - apply class_at_spec, (H i c Hi).
Qed.

(** The table [validHex128Tests] of the repository's tests, and upper case. *)
Example TestValidHex128 :
  ValidHex128 "01020304-0506-0708-090a-0b0c0d0e0f10" = true /\
  ValidHex128 "01020304-0506-0708-090a-0b0c0d0e0f1" = false /\
  ValidHex128 "0102030430506-0708-090a-0b0c0d0e0f1" = false /\
  ValidHex128 "01020304-050630708-090a-0b0c0d0e0f1" = false /\
  ValidHex128 "01020304-0506-07084090a-0b0c0d0e0f1" = false /\
  ValidHex128 "01020304-0506-0708-090a50b0c0d0e0f1" = false /\
  ValidHex128 "01020304-0506-0708-090a-0b0c0d0e0f1" = false /\
  ValidHex128 "01020304-0506-0708-090a-0b0c0d0e0f102" = false /\
  ValidHex128 "01020304-0506-0708-090a-0b0c0d0e0f1/" = false /\
  ValidHex128 "01020304-0506-0708-090A-0B0C0D0E0F10" = false /\
  ValidHex128 "01020304-0506-0708-090a-0b0c0d0e0f-0" = false.
Proof. repeat split. Qed.

Lemma hex_hi_version_marker (b : byte) : hex_hi (with_marker 4 b) = "4"%char.
Proof. destruct b; vm_compute; reflexivity. Qed.

Lemma hex_hi_variant_marker (b : byte) : hex_hi (with_marker 8 b) = "8"%char.
Proof. destruct b; vm_compute; reflexivity. Qed.

Lemma isLowerHex_hex_hi (b : byte) : isLowerHex (hex_hi b) = true.
Proof. destruct b; vm_compute; reflexivity. Qed.

Lemma isLowerHex_hex_lo (b : byte) : isLowerHex (hex_lo b) = true.
Proof. destruct b; vm_compute; reflexivity. Qed.

(** C9: [Hex128] of an identifier whose first 16 bytes are 01 02 ... 10
    (hex) is [01020304-0506-4a08-8907-0b0c0d0e0f10]; the digits at the
    version and variant positions (14 and 19 of the 36) are the markers 4
    and 8 whatever the identifier; two identifiers with the same first 16
    bytes have the same string. *)
Theorem Hex128_example_markers_and_prefix (u v : list byte) :
  length u = 24%nat -> length v = 24%nat ->
  firstn 16 u = firstn 16 v ->
  Hex128 (firstn 16 test_buf ++ skipn 16 u)%list
  = "01020304-0506-4a08-8907-0b0c0d0e0f10" /\
  String.length (Hex128 u) = 36%nat /\
  get 14 (Hex128 u) = Some "4"%char /\
  get 19 (Hex128 u) = Some "8"%char /\
  Hex128 u = Hex128 v.
Proof.
  intros Hu Hv E.
  as_24_bytes u Hu. as_24_bytes v Hv.
  cbn [firstn] in E. injection E as -> -> -> -> -> -> -> -> -> -> -> -> -> -> -> ->.
  split; [vm_compute; reflexivity|].
  cbn [Hex128 hex_encode append String.length get].
  rewrite hex_hi_version_marker, hex_hi_variant_marker.
  repeat split.
Qed.

Lemma Hex128_example_markers_and_prefix_witness :
  Hex128 (firstn 16 test_buf ++ skipn 16 test_buf)%list
  = "01020304-0506-4a08-8907-0b0c0d0e0f10" /\
  String.length (Hex128 test_buf) = 36%nat /\
  get 14 (Hex128 test_buf) = Some "4"%char /\
  get 19 (Hex128 test_buf) = Some "8"%char /\
  Hex128 test_buf = Hex128 test_buf'.
Proof.
  apply (Hex128_example_markers_and_prefix test_buf test_buf'); reflexivity.
Defined.

(** What [Hex128] returns, [ValidHex128] accepts. *)
Lemma ValidHex128_Hex128 (u : list byte) :
  length u = 24%nat -> ValidHex128 (Hex128 u) = true.
Proof.
  intros Hu. as_24_bytes u Hu.
  rewrite ValidHex128_check.
  cbn [Hex128 hex_encode append String.length Nat.eqb andb].
  cbn [check_from class_at existsb separators Nat.eqb orb].
  rewrite !isLowerHex_hex_hi, !isLowerHex_hex_lo.
  reflexivity.
Qed.


(** ** Further properties of the textual helpers *)

(** The two hex digits of a byte give the byte back. *)
Lemma hex_value_digits (b : byte) :
  byte.of_Z (16 * hex_value (hex_hi b) + hex_value (hex_lo b)) = b.
Proof. destruct b; vm_compute; reflexivity. Qed.

Lemma hex_digits_inj (a b : byte) :
  hex_hi a = hex_hi b -> hex_lo a = hex_lo b -> a = b.
Proof.
  intros Hhi Hlo.
  rewrite <- (hex_value_digits a), <- (hex_value_digits b).
  now rewrite Hhi, Hlo.
Qed.

(** The string of [Hex128] keeps the leading 8 bytes of the identifier:
    byte 6, whose place holds the version marker, is written at the place
    of byte 9. *)
Lemma Hex128_keeps_leading_bytes (u v : list byte) :
  length u = 24%nat -> length v = 24%nat ->
  Hex128 u = Hex128 v -> firstn 8 u = firstn 8 v.
Proof.
  intros Hu Hv E.
  as_24_bytes u Hu. as_24_bytes v Hv.
  cbn [Hex128 hex_encode append] in E. cbn [firstn].
  repeat match goal with
         | |- ?a :: _ = ?b :: _ =>
             replace a with b by (apply hex_digits_inj; congruence);
             f_equal
         end.
Qed.

Lemma nth_uuid_leading_differ (g : Generator) (i j : nat) :
  i <> j ->
  Z.abs (Z.of_nat j - Z.of_nat i) < 2 ^ 64 ->
  firstn 8 (nth_uuid g i) <> firstn 8 (nth_uuid g j).
Proof.
  intros Hij Hclose. unfold nth_uuid, counter_after.
  rewrite !firstn_8_le_bytes_app. intros E.
  apply le_bytes_8_inj in E; try (apply Z.mod_pos_bound, uint64_modulus_pos).
  change (2 ^ 64) with uint64_modulus in Hclose.
  destruct (Nat.lt_total i j) as [Hlt | [Heq | Hgt]]; [|contradiction|].
  - revert E. apply mod_eq_close. lia.
  - symmetry in E. revert E. apply mod_eq_close. lia.
Qed.

(** [Hex128(g.Next())], in the model of [Hex128]: the strings of two
    distinct calls on one Generator, less than 2^64 calls apart, differ, and
    [ValidHex128] accepts them. *)
Theorem Hex128_of_distinct_calls_differ (g : Generator) (n : nat) :
  wf g ->
  exists uuids g',
    calls n g = Return (uuids, g') /\
    length uuids = n /\
    forall i j ui uj,
      nth_error uuids i = Some ui ->
      nth_error uuids j = Some uj ->
      ValidHex128 (Hex128 ui) = true /\
      (i <> j -> Z.abs (Z.of_nat j - Z.of_nat i) < 2 ^ 64 ->
       Hex128 ui <> Hex128 uj).
Proof.
  intros Hwf. eexists _, _. split; [apply calls_eq, Hwf|].
  split; [now rewrite length_map, length_seq|].
  intros i j ui uj Hi Hj.
  apply nth_error_calls in Hi as [_ ->]. apply nth_error_calls in Hj as [_ ->].
  assert (Hlen : forall k, length (nth_uuid g k) = 24%nat)
    by (intros k; apply length_compose, Hwf).
  split; [apply ValidHex128_Hex128, Hlen|].
  intros Hij Hclose E.
  apply Hex128_keeps_leading_bytes in E; try apply Hlen.
  revert E. apply nth_uuid_leading_differ; lia.
Qed.

Lemma Hex128_of_distinct_calls_differ_witness :
  exists uuids g',
    calls 3 test_gen = Return (uuids, g') /\
    length uuids = 3%nat /\
    forall i j ui uj,
      nth_error uuids i = Some ui ->
      nth_error uuids j = Some uj ->
      ValidHex128 (Hex128 ui) = true /\
      (i <> j -> Z.abs (Z.of_nat j - Z.of_nat i) < 2 ^ 64 ->
       Hex128 ui <> Hex128 uj).
Proof. apply (Hex128_of_distinct_calls_differ test_gen 3), test_gen_wf. Defined.
